(** * tiny-ledger: the in-memory ledger store

    A shallow embedding of [internal/store] (the sorted-slice store
    [LedgerStore] and the red-black-tree store [LedgerStoreV2]) and of
    [internal/models], with the properties of the store that the design
    document states.

    Conventions of the embedding.
    - [float64] amounts are exact rationals ([Q]): the design document treats
      amounts as opaque real numbers and leaves rounding out of scope.
      Equality of balances is therefore [Qeq] ([==]). A statement about a
      balance accumulated over several calls is made for amounts on which
      the arithmetic of [float64] is exact ([exact_ops]).
    - [time.Time] is an instant on a line ([Z]); [Before] and [After] are the
      strict orders.
    - [int] is the 64-bit signed integer of the build target
      ([GOARCH=amd64]); [+], [-] and [*] on [int] wrap around.
    - The store's mutex makes every operation atomic, so an operation is a
      function from the store before to the store after and the result.
    - [uuid.New()] and [time.Now()] are inputs of [AddTransaction].
    - A run-time panic (slice bounds, negative [make] length) is [None]. *)

From Stdlib Require Import ZArith QArith Lqa Lia Bool.
From Stdlib Require Import Sorting.Sorted Sorting.Permutation.
From Equations Require Import Equations.
From stdpp Require Import base option list gmap strings.

Local Open Scope Z_scope.

(** ** Go's [int] *)

Module GoInt.

Definition int_bits : Z := 64.
Definition int_modulus : Z := 2 ^ int_bits.
Definition max_int : Z := 2 ^ (int_bits - 1) - 1.
Definition min_int : Z := - 2 ^ (int_bits - 1).

(** The two's complement representative of [x]. *)
Definition wrap (x : Z) : Z :=
  (x + 2 ^ (int_bits - 1)) mod int_modulus - 2 ^ (int_bits - 1).

Definition is_int (x : Z) : Prop := min_int <= x <= max_int.

Definition int_add (x y : Z) : Z := wrap (x + y).
Definition int_sub (x y : Z) : Z := wrap (x - y).
Definition int_mul (x y : Z) : Z := wrap (x * y).

End GoInt.
Export GoInt.

(** ** [internal/models] *)

Definition TransactionType : Type := string.
Definition Deposit : TransactionType := "deposit".
Definition Withdrawal : TransactionType := "withdrawal".

Definition UUID : Type := N.
Definition Time : Type := Z.

Definition Before (t u : Time) : bool := t <? u.
Definition After (t u : Time) : bool := t >? u.

Record TransactionRecord : Type := mkTransactionRecord {
  ID : UUID;
  Amount : Q;
  TxType : TransactionType;
  Timestamp : Time;
  Description : string
}.

(** [models.TransactionRecord{}] *)
Definition zero_record : TransactionRecord :=
  {| ID := 0%N; Amount := 0%Q; TxType := ""; Timestamp := 0; Description := "" |}.

(** [NewTransactionRecord]; [id] is the result of [uuid.New()] and [now] of
    [time.Now()]. *)
Definition NewTransactionRecord (transactionType : TransactionType) (amount : Q)
    (description : string) (id : UUID) (now : Time) : TransactionRecord :=
  {| ID := id; Amount := amount; TxType := transactionType;
     Timestamp := now; Description := description |}.

(** ** Package [sort] *)

Section Sort.
Context {A : Type}.

(** [sort.SliceStable(s, less)]: a stable sort. The library sorts blocks by
    insertion and merges them in place; for a strict weak order [less] every
    stable sort yields the same list, here the one of insertion sort. *)
Fixpoint insert_stable (less : A → A → bool) (x : A) (l : list A) : list A :=
  match l with
  | [] => [x]
  | y :: l' => if less y x then y :: insert_stable less x l' else x :: y :: l'
  end.

Definition SliceStable (less : A → A → bool) (l : list A) : list A :=
  foldr (insert_stable less) [] l.

End Sort.

(** [sort.Search(n, f)]:
<<
  i, j := 0, n
  for i < j {
      h := int(uint(i+j) >> 1)
      if !f(h) { i = h + 1 } else { j = h }
  }
  return i
>>
    For [0 <= i <= j <= n] the sum [i+j] fits the unsigned word, so [h] is
    the midpoint [(i+j)/2]. *)
Equations? search_loop (f : Z → bool) (i j : Z) : Z by wf (Z.to_nat (j - i)) lt :=
  search_loop f i j with Z_lt_dec i j => {
    | right _ := i
    | left _ with f ((i + j) / 2) => {
        | false := search_loop f ((i + j) / 2 + 1) j
        | true := search_loop f i ((i + j) / 2) } }.
Proof.
  all: pose proof (Z.div_lt_upper_bound (i + j) 2 j);
       pose proof (Z.div_le_lower_bound (i + j) 2 i); lia.
Qed.

Definition Search (n : Z) (f : Z → bool) : Z := search_loop f 0 n.

(** ** [internal/store]: the sorted-slice store *)

Definition error : Type := string.

Record userLedger : Type := mkUserLedger {
  transactions : list TransactionRecord;
  balance : Q
}.

(** [&userLedger{}] *)
Definition empty_ledger : userLedger := {| transactions := []; balance := 0%Q |}.

Record PaginatedTransactions : Type := mkPaginatedTransactions {
  Transactions : list TransactionRecord;
  TotalCount : Z
}.

(** The [users] map of a [LedgerStore]; the map holds pointers, so a ledger
    changed through its pointer is changed in the map. *)
Abbreviation LedgerStore := (gmap string userLedger).

Definition NewLedgerStore : LedgerStore := ∅.

(** [a < b] on amounts. *)
Definition Qltb (a b : Q) : bool := negb (Qle_bool b a).

(** The [less] function of both [sort.SliceStable] calls. *)
Definition less_timestamp (a b : TransactionRecord) : bool :=
  Before (Timestamp a) (Timestamp b).

(** [ledger, exists := s.users[userId]; if !exists { ... }] *)
Definition lookup_or_create (s : LedgerStore) (userId : string) : userLedger * LedgerStore :=
  match s !! userId with
  | Some ledger => (ledger, s)
  | None => (empty_ledger, <[userId := empty_ledger]> s)
  end.

Definition AddTransaction (s : LedgerStore) (userId : string) (txType : TransactionType)
    (amount : Q) (description : string) (id : UUID) (now : Time)
    : LedgerStore * (TransactionRecord * option error) :=
  let '(ledger, s) := lookup_or_create s userId in
  if String.eqb txType Withdrawal && Qltb (balance ledger) amount then
    (s, (zero_record, Some "insufficient funds"))
  else
    let tx := NewTransactionRecord txType amount description id now in
    let balance' :=
      if String.eqb txType Deposit then (balance ledger + amount)%Q
      else (balance ledger - amount)%Q in
    let transactions' := SliceStable less_timestamp (transactions ledger ++ [tx]) in
    (<[userId := {| transactions := transactions'; balance := balance' |}]> s, (tx, None)).

Definition AddTransactionWithTime (s : LedgerStore) (userId : string)
    (tx : TransactionRecord) : LedgerStore :=
  let '(ledger, s) := lookup_or_create s userId in
  let balance' :=
    if String.eqb (TxType tx) Deposit then (balance ledger + Amount tx)%Q
    else if String.eqb (TxType tx) Withdrawal then (balance ledger - Amount tx)%Q
    else balance ledger in
  let transactions' := SliceStable less_timestamp (transactions ledger ++ [tx]) in
  <[userId := {| transactions := transactions'; balance := balance' |}]> s.

(** [len(l)] as an [int]. *)
Definition len {A} (l : list A) : Z := Z.of_nat (length l).

(** [l[i].Timestamp]; only evaluated at [0 <= i < len(l)]. *)
Definition timestamp_at (l : list TransactionRecord) (i : Z) : Time :=
  match l !! Z.to_nat i with
  | Some r => Timestamp r
  | None => 0
  end.

(** [make([]T, n)]: panics when the length is negative. (A length beyond
    what can be allocated fails as well; such a length is never followed by
    a slice expression that succeeds.) *)
Definition make_check (n : Z) : option unit :=
  if n <? 0 then None else Some tt.

(** [l[lo:hi]]: panics unless [0 <= lo <= hi <= cap(l)]. Every [hi] that
    reaches this point is at most [len(l)], so capacity beyond the length
    plays no part and the bound checked is [len(l)]. *)
Definition slice {A} (l : list A) (lo hi : Z) : option (list A) :=
  if (0 <=? lo) && (lo <=? hi) && (hi <=? len l)
  then Some (take (Z.to_nat (hi - lo)) (drop (Z.to_nat lo) l))
  else None.

Definition GetPaginatedTransactions (s : LedgerStore) (userId : string)
    (startTime endTime : option Time) (page pageSize : Z)
    : option PaginatedTransactions :=
  match s !! userId with
  | None => Some {| Transactions := []; TotalCount := 0 |}
  | Some ledger =>
    let n := len (transactions ledger) in
    let startIdx :=
      match startTime with
      | Some st => Search n (fun i => negb (Before (timestamp_at (transactions ledger) i) st))
      | None => 0
      end in
    let endIdx :=
      match endTime with
      | Some et => Search n (fun i => After (timestamp_at (transactions ledger) i) et)
      | None => n
      end in
    let filteredCount := int_sub endIdx startIdx in
    let page := if page <? 1 then 1 else page in
    let pageStartIdx := int_add startIdx (int_mul (int_sub page 1) pageSize) in
    let pageEndIdx := int_add pageStartIdx pageSize in
    if pageStartIdx >=? endIdx then
      Some {| Transactions := []; TotalCount := filteredCount |}
    else
      let pageEndIdx := if pageEndIdx >? endIdx then endIdx else pageEndIdx in
      _ ← make_check (int_sub pageEndIdx pageStartIdx);
      pageTransactions ← slice (transactions ledger) pageStartIdx pageEndIdx;
      Some {| Transactions := pageTransactions; TotalCount := filteredCount |}
  end.

Definition GetBalance (s : LedgerStore) (userId : string) : Q * option error :=
  match s !! userId with
  | None => (0%Q, None)
  | Some ledger => (balance ledger, None)
  end.

(** ** [internal/store]: the red-black-tree store

    [redblacktree.Tree] with [timeComparator] is a map ordered by timestamp;
    it is represented by its in-order list of entries. [Put] replaces the
    value of a key that is present and inserts an absent key at its place.

    [NewLedgerStoreV2] returns a [*LedgerStore], so the package has no
    constructor of a [LedgerStoreV2]; the fresh tree store is the one with an
    empty [users] map. A [nil] slice and an empty slice are the same list. *)

Definition Tree : Type := list (Time * TransactionRecord).

Fixpoint Put (k : Time) (v : TransactionRecord) (t : Tree) : Tree :=
  match t with
  | [] => [(k, v)]
  | (k', v') :: t' =>
    if k <? k' then (k, v) :: (k', v') :: t'
    else if k =? k' then (k, v) :: t'
    else (k', v') :: Put k v t'
  end.

Record userLedgerV2 : Type := mkUserLedgerV2 {
  tree : Tree;
  balanceV2 : Q
}.

(** [&userLedgerV2{tree: redblacktree.NewWith(timeComparator)}] *)
Definition empty_ledgerV2 : userLedgerV2 := {| tree := []; balanceV2 := 0%Q |}.

Abbreviation LedgerStoreV2 := (gmap string userLedgerV2).

Definition lookup_or_createV2 (s : LedgerStoreV2) (userId : string)
    : userLedgerV2 * LedgerStoreV2 :=
  match s !! userId with
  | Some ledger => (ledger, s)
  | None => (empty_ledgerV2, <[userId := empty_ledgerV2]> s)
  end.

Definition AddTransactionV2 (s : LedgerStoreV2) (userId : string) (txType : TransactionType)
    (amount : Q) (description : string) (id : UUID) (now : Time)
    : LedgerStoreV2 * (TransactionRecord * option error) :=
  let '(ledger, s) := lookup_or_createV2 s userId in
  if String.eqb txType Withdrawal && Qltb (balanceV2 ledger) amount then
    (s, (zero_record, Some "insufficient funds"))
  else
    let tx := NewTransactionRecord txType amount description id now in
    let balance' :=
      if String.eqb txType Deposit then (balanceV2 ledger + amount)%Q
      else (balanceV2 ledger - amount)%Q in
    (<[userId := {| tree := Put (Timestamp tx) tx (tree ledger); balanceV2 := balance' |}]> s,
     (tx, None)).

(** The iterator loop of [GetPaginatedTransactionsV2]: [continue] before
    [startTime], [break] after [endTime], [append] otherwise. *)
Fixpoint collect (startTime endTime : option Time) (entries : Tree)
    (acc : list TransactionRecord) : list TransactionRecord :=
  match entries with
  | [] => acc
  | (t, tx) :: rest =>
    if (match startTime with Some st => Before t st | None => false end) then
      collect startTime endTime rest acc
    else if (match endTime with Some et => After t et | None => false end) then
      acc
    else collect startTime endTime rest (acc ++ [tx])
  end.

Definition GetPaginatedTransactionsV2 (s : LedgerStoreV2) (userId : string)
    (startTime endTime : option Time) (page pageSize : Z)
    : option PaginatedTransactions :=
  match s !! userId with
  | None => Some {| Transactions := []; TotalCount := 0 |}
  | Some ledger =>
    let transactions := collect startTime endTime (tree ledger) [] in
    let total := len transactions in
    let page := if page <? 1 then 1 else page in
    let start := int_mul (int_sub page 1) pageSize in
    if start >=? total then
      Some {| Transactions := []; TotalCount := total |}
    else
      let end_ := int_add start pageSize in
      let end_ := if end_ >? total then total else end_ in
      pageTransactions ← slice transactions start end_;
      Some {| Transactions := pageTransactions; TotalCount := total |}
  end.

Definition GetBalanceV2 (s : LedgerStoreV2) (userId : string) : Q * option error :=
  match s !! userId with
  | None => (0%Q, None)
  | Some ledger => (balanceV2 ledger, None)
  end.

(** ** Observations and runs *)

(** The ledger of an account; an account the store has not seen has the
    empty ledger. *)
Definition ledger_of (s : LedgerStore) (userId : string) : userLedger :=
  default empty_ledger (s !! userId).

Definition transactions_of (s : LedgerStore) (userId : string) : list TransactionRecord :=
  transactions (ledger_of s userId).

Definition balance_of (s : LedgerStore) (userId : string) : Q :=
  balance (ledger_of s userId).

(** The closed enumeration of kinds that callers of the store pass. *)
Definition valid_type (t : TransactionType) : Prop := t = Deposit ∨ t = Withdrawal.

Definition timestamp_le (a b : TransactionRecord) : Prop := Timestamp a <= Timestamp b.

Definition sorted_by_timestamp (l : list TransactionRecord) : Prop :=
  StronglySorted timestamp_le l.

(** The range filter: inclusive start, inclusive end, each optional. *)
Definition in_range (startTime endTime : option Time) (r : TransactionRecord) : Prop :=
  (match startTime with Some st => st <= Timestamp r | None => True end) ∧
  (match endTime with Some et => Timestamp r <= et | None => True end).

Global Instance in_range_dec st et r : Decision (in_range st et r).
Proof. unfold in_range. destruct st, et; apply _. Defined.

(** The guard of the service layer: [startTime] is not after [endTime]. *)
Definition range_ok (startTime endTime : option Time) : Prop :=
  match startTime, endTime with
  | Some st, Some et => st <= et
  | _, _ => True
  end.

(** The arguments of one [AddTransaction] call. *)
Record AddCall : Type := mkAddCall {
  call_user : string;
  call_type : TransactionType;
  call_amount : Q;
  call_description : string;
  call_id : UUID;
  call_now : Time
}.

Definition do_call (s : LedgerStore) (c : AddCall)
    : LedgerStore * (TransactionRecord * option error) :=
  AddTransaction s (call_user c) (call_type c) (call_amount c)
    (call_description c) (call_id c) (call_now c).

Fixpoint run_calls (s : LedgerStore) (calls : list AddCall) : LedgerStore :=
  match calls with
  | [] => s
  | c :: calls => run_calls (do_call s c).1 calls
  end.

(** The calls of a run that returned no error, in order. *)
Fixpoint succeeded (s : LedgerStore) (calls : list AddCall) : list AddCall :=
  match calls with
  | [] => []
  | c :: calls =>
    let r := do_call s c in
    match r.2.2 with
    | None => c :: succeeded r.1 calls
    | Some _ => succeeded r.1 calls
    end
  end.

(** What every call of a run returned. *)
Fixpoint results (s : LedgerStore) (calls : list AddCall)
    : list (TransactionRecord * option error) :=
  match calls with
  | [] => []
  | c :: calls => let r := do_call s c in r.2 :: results r.1 calls
  end.

(** The sum of the amounts of the calls of kind [t] on account [userId]. *)
Fixpoint sum_amounts (userId : string) (t : TransactionType) (calls : list AddCall) : Q :=
  match calls with
  | [] => 0%Q
  | c :: calls =>
    if String.eqb (call_user c) userId && String.eqb (call_type c) t
    then (call_amount c + sum_amounts userId t calls)%Q
    else sum_amounts userId t calls
  end.

(** Store states reachable from the empty store by the two mutators, with
    any arguments. *)
Inductive reachable : LedgerStore → Prop :=
| reachable_new : reachable NewLedgerStore
| reachable_add s userId txType amount description id now :
    reachable s →
    reachable (AddTransaction s userId txType amount description id now).1
| reachable_add_with_time s userId tx :
    reachable s →
    reachable (AddTransactionWithTime s userId tx).

(** A record that [AddTransactionWithTime] can apply without overdrawing:
    a deposit of a non-negative amount, or a withdrawal the balance covers. *)
Definition covered (s : LedgerStore) (userId : string) (tx : TransactionRecord) : Prop :=
  (TxType tx = Deposit → (0 <= Amount tx)%Q) ∧
  (TxType tx = Withdrawal → (Amount tx <= balance_of s userId)%Q).

(** Store states reachable by [AddTransaction] calls with a kind of the
    enumeration and a non-negative amount, and by [AddTransactionWithTime]
    calls with a covered record. *)
Inductive reachable_covered : LedgerStore → Prop :=
| reachable_covered_new : reachable_covered NewLedgerStore
| reachable_covered_add s userId txType amount description id now :
    reachable_covered s → valid_type txType → (0 <= amount)%Q →
    reachable_covered (AddTransaction s userId txType amount description id now).1
| reachable_covered_add_with_time s userId tx :
    reachable_covered s → covered s userId tx →
    reachable_covered (AddTransactionWithTime s userId tx).

(** The signed sum of a transaction sequence: the balance recomputed as a
    fold over the records. *)
Definition signed_amount (r : TransactionRecord) : Q :=
  if String.eqb (TxType r) Deposit then Amount r
  else if String.eqb (TxType r) Withdrawal then (- Amount r)%Q
  else 0%Q.

Definition fold_balance (l : list TransactionRecord) : Q :=
  foldr (λ r acc, (signed_amount r + acc)%Q) 0%Q l.

(** The balance invariant of an account ledger. *)
Definition ledger_consistent (l : userLedger) : Prop :=
  (balance l == fold_balance (transactions l))%Q.

(** Page [page] of size [pageSize] of a list: what pagination over exact
    integers selects. *)
Definition page_of {A} (l : list A) (page pageSize : Z) : list A :=
  take (Z.to_nat pageSize) (drop (Z.to_nat ((page - 1) * pageSize)) l).

(** ** The two stores side by side *)

Definition do_callV2 (s : LedgerStoreV2) (c : AddCall)
    : LedgerStoreV2 * (TransactionRecord * option error) :=
  AddTransactionV2 s (call_user c) (call_type c) (call_amount c)
    (call_description c) (call_id c) (call_now c).

Fixpoint run_callsV2 (s : LedgerStoreV2) (calls : list AddCall) : LedgerStoreV2 :=
  match calls with
  | [] => s
  | c :: calls => run_callsV2 (do_callV2 s c).1 calls
  end.

Fixpoint resultsV2 (s : LedgerStoreV2) (calls : list AddCall)
    : list (TransactionRecord * option error) :=
  match calls with
  | [] => []
  | c :: calls => let r := do_callV2 s c in r.2 :: resultsV2 r.1 calls
  end.

(** The tree entry of a record. *)
Definition entry (r : TransactionRecord) : Time * TransactionRecord := (Timestamp r, r).

(** A tree ledger that holds the same records in the same order and the same
    balance as a slice ledger. *)
Definition ledger_equiv (l1 : userLedger) (l2 : userLedgerV2) : Prop :=
  tree l2 = entry <$> transactions l1 ∧ balanceV2 l2 = balance l1.

Definition store_equiv (s1 : LedgerStore) (s2 : LedgerStoreV2) : Prop :=
  ∀ userId, option_Forall2 ledger_equiv (s1 !! userId) (s2 !! userId).

(** ** Auxiliary definitions of the proofs *)

(** [insert_last x l] puts [x] behind every record that is not later. *)
Fixpoint insert_last (x : TransactionRecord) (l : list TransactionRecord)
    : list TransactionRecord :=
  match l with
  | [] => [x]
  | y :: l' => if less_timestamp x y then x :: y :: l' else y :: insert_last x l'
  end.

(** [f] is false up to some index and true from it on, between [i] and [j]. *)
Definition monotone_on (f : Z → bool) (i j : Z) : Prop :=
  ∀ a b, i <= a → a <= b → b < j → f a = true → f b = true.

(** [startIdx] and [endIdx] of [GetPaginatedTransactions]. *)
Definition start_index (l : list TransactionRecord) (startTime : option Time) : Z :=
  match startTime with
  | Some st => Search (len l) (λ i, negb (Before (timestamp_at l i) st))
  | None => 0
  end.

Definition end_index (l : list TransactionRecord) (endTime : option Time) : Z :=
  match endTime with
  | Some et => Search (len l) (λ i, After (timestamp_at l i) et)
  | None => len l
  end.

Definition from_start (startTime : option Time) (r : TransactionRecord) : Prop :=
  match startTime with Some st => st <= Timestamp r | None => True end.

Definition past_end (endTime : option Time) (r : TransactionRecord) : Prop :=
  match endTime with Some et => et < Timestamp r | None => False end.

Global Instance from_start_dec st r : Decision (from_start st r).
Proof. unfold from_start. destruct st; apply _. Defined.

Global Instance past_end_dec et r : Decision (past_end et r).
Proof. unfold past_end. destruct et; apply _. Defined.

(** The test that rejects a call. *)
Definition insufficient (s : LedgerStore) (u : string) (ty : TransactionType) (amt : Q) : bool :=
  String.eqb ty Withdrawal && Qltb (balance_of s u) amt.

(** The ledger an accepted call leaves behind. *)
Definition applied (l : userLedger) (tx : TransactionRecord) : userLedger :=
  {| transactions := SliceStable less_timestamp (transactions l ++ [tx]);
     balance := if String.eqb (TxType tx) Deposit then (balance l + Amount tx)%Q
                else (balance l - Amount tx)%Q |}.

(** The ledger [AddTransactionWithTime] leaves behind. *)
Definition applied_with_time (l : userLedger) (tx : TransactionRecord) : userLedger :=
  {| transactions := SliceStable less_timestamp (transactions l ++ [tx]);
     balance := if String.eqb (TxType tx) Deposit then (balance l + Amount tx)%Q
                else if String.eqb (TxType tx) Withdrawal then (balance l - Amount tx)%Q
                else balance l |}.

(** The arguments for which no [int] operation of the page arithmetic
    overflows: the page number is a positive [int], the page size is not
    negative, and the end of the page, counted from the end of the sequence
    of length [n], is an [int]. *)
Definition page_fits (n page pageSize : Z) : Prop :=
  1 <= page <= max_int ∧ 0 <= pageSize ∧ n + page * pageSize <= max_int.

(** One mutation of the store. *)
Inductive Op : Type :=
| OpAdd (c : AddCall)
| OpAddWithTime (userId : string) (tx : TransactionRecord).

Definition op_user (op : Op) : string :=
  match op with
  | OpAdd c => call_user c
  | OpAddWithTime userId _ => userId
  end.

Definition do_op (s : LedgerStore) (op : Op) : LedgerStore :=
  match op with
  | OpAdd c => (do_call s c).1
  | OpAddWithTime userId tx => AddTransactionWithTime s userId tx
  end.

Fixpoint run_ops (s : LedgerStore) (ops : list Op) : LedgerStore :=
  match ops with
  | [] => s
  | op :: ops => run_ops (do_op s op) ops
  end.

(** The records at the indices that the page arithmetic over exact integers
    selects from the index range [lo, hi): from
    [pageStart = lo + (page-1)*pageSize] up to
    [min(pageStart + pageSize, hi)], and none when [pageStart >= hi]. *)
Definition index_page {A} (l : list A) (lo hi page pageSize : Z) : list A :=
  let pageStart := lo + (page - 1) * pageSize in
  let pageEnd := Z.min (pageStart + pageSize) hi in
  if pageStart >=? hi then []
  else take (Z.to_nat (pageEnd - pageStart)) (drop (Z.to_nat pageStart) l).

(** ** Example runs *)

(** Deposit 100, withdraw 150 (rejected), withdraw 30: the balance is 70. *)
Definition calls_example : list AddCall :=
  [ mkAddCall "alice" Deposit 100 "pay" 1%N 10;
    mkAddCall "alice" Withdrawal 150 "rent" 2%N 20;
    mkAddCall "alice" Withdrawal 30 "food" 3%N 30 ].


(** A withdrawal of 50 seeded into a fresh account. *)
Definition overdrawn_store : LedgerStore :=
  AddTransactionWithTime NewLedgerStore "alice"
    {| ID := 0%N; Amount := 50; TxType := Withdrawal; Timestamp := 5;
       Description := "seed" |}.

Definition ops_example : list Op :=
  [ OpAdd (mkAddCall "alice" Deposit 100 "pay" 1%N 10);
    OpAddWithTime "carol" {| ID := 0%N; Amount := 7; TxType := Deposit; Timestamp := 3;
                             Description := "seed" |};
    OpAdd (mkAddCall "alice" Withdrawal 30 "food" 3%N 30) ].

(** Three deposits of 10 at the instants 1, 2 and 3. *)
Definition three_calls : list AddCall :=
  [ mkAddCall "alice" Deposit 10 "a" 1%N 1;
    mkAddCall "alice" Deposit 10 "b" 2%N 2;
    mkAddCall "alice" Deposit 10 "c" 3%N 3 ].

Definition three_deposits : LedgerStore := run_calls NewLedgerStore three_calls.

(** The same three deposits in the tree store. *)
Definition three_depositsV2 : LedgerStoreV2 := run_callsV2 ∅ three_calls.

(** One deposit of 100 at the instant 10. *)
Definition one_deposit : LedgerStore :=
  (AddTransaction NewLedgerStore "alice" Deposit 100 "pay" 1%N 10).1.

(** ** [internal/services]

    The service holds a pointer to the store, so its operations take the
    store and return it. A panic of the store is a panic of the service. *)

Module services.

Local Abbreviation store_Transactions := Transactions.
Local Abbreviation store_TotalCount := TotalCount.

Record PaginatedTransactions : Type := mkServicePage {
  Transactions : list TransactionRecord;
  TotalCount : Z;
  Page : Z;
  PageSize : Z;
  TotalPages : Z
}.

(** [PaginatedTransactions{}] *)
Definition zero_page : PaginatedTransactions :=
  {| Transactions := []; TotalCount := 0; Page := 0; PageSize := 0; TotalPages := 0 |}.

(** A byte of the class [[a-zA-Z0-9_.-]]. *)
Definition id_char (c : Ascii.ascii) : bool :=
  let n := Ascii.N_of_ascii c in
  ((97 <=? n) && (n <=? 122) || (65 <=? n) && (n <=? 90) || (48 <=? n) && (n <=? 57)
   || (n =? 95) || (n =? 46) || (n =? 45))%N.

Fixpoint all_chars (p : Ascii.ascii → bool) (s : string) : bool :=
  match s with
  | EmptyString => true
  | String c s' => p c && all_chars p s'
  end.

(** [userIdRegex.MatchString] for the pattern [^[a-zA-Z0-9_.-]{3,50}$]: the
    anchors make the match cover the whole text, the class holds ASCII
    characters only, so the text matches when it has between 3 and 50 bytes
    and each is in the class. *)
Definition userIdRegex_MatchString (s : string) : bool :=
  (3 <=? Z.of_nat (String.length s)) && (Z.of_nat (String.length s) <=? 50)
  && all_chars id_char s.

Definition maxAmount : Q := 1000000.

Definition RecordTransaction (s : LedgerStore) (userId : string)
    (txType : TransactionType) (amount : Q) (description : string) (id : UUID) (now : Time)
    : LedgerStore * (TransactionRecord * option error) :=
  if String.eqb userId "" then
    (s, (zero_record, Some "user ID is required"))
  else if negb (userIdRegex_MatchString userId) then
    (s, (zero_record,
         Some "invalid user ID format: must be 3-50 alphanumeric characters, underscores, dots, or hyphens"))
  else if Qle_bool amount 0 then
    (s, (zero_record, Some "amount must be positive"))
  else if Qltb maxAmount amount then
    (s, (zero_record, Some "amount exceeds maximum allowed"))
  else if negb (String.eqb txType Deposit) && negb (String.eqb txType Withdrawal) then
    (s, (zero_record, Some "invalid transaction type"))
  else if Z.of_nat (String.length description) >? 500 then
    (s, (zero_record, Some "description exceeds maximum length of 500 characters"))
  else
    let '(s', (tx, err)) := AddTransaction s userId txType amount description id now in
    match err with
    | Some e => (s', (zero_record, Some e))
    | None => (s', (tx, None))
    end.

Definition maxPageSize : Z := 100.

(** Integer division of Go truncates toward zero: [Z.quot]. *)
Definition GetPaginatedTransactionHistory (s : LedgerStore) (userId : string)
    (startTime endTime : option Time) (page pageSize : Z)
    : option (PaginatedTransactions * option error) :=
  if String.eqb userId "" then
    Some (zero_page, Some "user ID is required")
  else if negb (userIdRegex_MatchString userId) then
    Some (zero_page, Some "invalid user ID format")
  else
    let page := if page <? 1 then 1 else page in
    let pageSize := if pageSize <? 1 then 10 else pageSize in
    let pageSize := if pageSize >? maxPageSize then maxPageSize else pageSize in
    if (match startTime, endTime with
        | Some st, Some et => After st et
        | _, _ => false
        end) then
      Some (zero_page, Some "start time cannot be after end time")
    else
      result ← GetPaginatedTransactions s userId startTime endTime page pageSize;
      let totalPages :=
        Z.quot (int_sub (int_add (store_TotalCount result) pageSize) 1) pageSize in
      let totalPages := if totalPages <? 1 then 1 else totalPages in
      Some ({| Transactions := store_Transactions result;
               TotalCount := store_TotalCount result;
               Page := page;
               PageSize := pageSize;
               TotalPages := totalPages |}, None).

Definition GetCurrentBalance (s : LedgerStore) (userId : string) : Q * option error :=
  if String.eqb userId "" then (0%Q, Some "user ID is required")
  else if negb (userIdRegex_MatchString userId) then (0%Q, Some "invalid user ID format")
  else
    let '(balance, err) := GetBalance s userId in
    match err with
    | Some e => (0%Q, Some e)
    | None => (balance, None)
    end.

End services.

(** ** Further definitions of the statements *)

(** Store states reachable when every [AddTransaction] call has a kind of
    the enumeration; [AddTransactionWithTime] takes any record. *)
Inductive reachable_valid : LedgerStore → Prop :=
| reachable_valid_new : reachable_valid NewLedgerStore
| reachable_valid_add s userId txType amount description id now :
    reachable_valid s → valid_type txType →
    reachable_valid (AddTransaction s userId txType amount description id now).1
| reachable_valid_add_with_time s userId tx :
    reachable_valid s →
    reachable_valid (AddTransactionWithTime s userId tx).

(** The record an accepted call creates. *)
Definition record_of (c : AddCall) : TransactionRecord :=
  NewTransactionRecord (call_type c) (call_amount c) (call_description c)
    (call_id c) (call_now c).

(** The pages [page], [page+1], ... ([k] of them) of one query, one after
    the other; a panic of one call is a panic of the whole. *)
Fixpoint pages_from (s : LedgerStore) (userId : string) (startTime endTime : option Time)
    (pageSize page : Z) (k : nat) : option (list TransactionRecord) :=
  match k with
  | O => Some []
  | S k =>
    r ← GetPaginatedTransactions s userId startTime endTime page pageSize;
    rest ← pages_from s userId startTime endTime pageSize (page + 1) k;
    Some (Transactions r ++ rest)
  end.

(** Tree-store states reachable from the fresh store. *)
Inductive reachableV2 : LedgerStoreV2 → Prop :=
| reachableV2_new : reachableV2 ∅
| reachableV2_add s userId txType amount description id now :
    reachableV2 s →
    reachableV2 (AddTransactionV2 s userId txType amount description id now).1.

(** The tree of an account in the tree store, empty for an unseen account. *)
Definition tree_of (s : LedgerStoreV2) (userId : string) : Tree :=
  match s !! userId with
  | Some l => tree l
  | None => []
  end.

(** Keys strictly increasing, and every key the timestamp of its record. *)
Definition tree_wf (t : Tree) : Prop :=
  StronglySorted (λ a b, a.1 < b.1) t ∧ Forall (λ e, e.1 = Timestamp e.2) t.

(** The page number and the page size after the defaults and the clamp of
    [GetPaginatedTransactionHistory]. *)
Definition normal_page (page : Z) : Z := if page <? 1 then 1 else page.

Definition normal_page_size (pageSize : Z) : Z :=
  let pageSize := if pageSize <? 1 then 10 else pageSize in
  if pageSize >? services.maxPageSize then services.maxPageSize else pageSize.

(** *** Amounts on which the arithmetic of [float64] is exact

    A [float64] holds every whole number of magnitude up to [2^53], and the
    sum and the difference of two such numbers, when of that magnitude too,
    without rounding. Where the amounts of an account are whole numbers and
    their magnitudes add up to at most [2^53], every balance the account
    passes through is such a number, so every [+=], [-=] and [<] of the
    store is exact and the rational balance is the balance the code holds.
    Such an amount is in particular a number: not a NaN, not infinite. *)

Definition whole (a : Q) : Prop := Qden a = 1%positive.

Definition exact_bound : Z := 2 ^ 53.

Definition op_amount (op : Op) : Q :=
  match op with
  | OpAdd c => call_amount c
  | OpAddWithTime _ tx => Amount tx
  end.

(** The magnitudes of the amounts of the operations on an account, added. *)
Fixpoint magnitude (userId : string) (ops : list Op) : Z :=
  match ops with
  | [] => 0
  | op :: ops =>
    (if String.eqb (op_user op) userId then Z.abs (Qnum (op_amount op)) else 0)
    + magnitude userId ops
  end.

Definition exact_ops (userId : string) (ops : list Op) : Prop :=
  Forall (λ op, op_user op = userId → whole (op_amount op)) ops ∧
  magnitude userId ops <= exact_bound.

(** Every [AddTransaction] call of the operations has a kind of the
    enumeration. *)
Definition valid_ops (ops : list Op) : Prop :=
  Forall (λ op, match op with
                | OpAdd c => valid_type (call_type c)
                | OpAddWithTime _ _ => True
                end) ops.

(** * Properties *)

(** ** The library functions on small inputs *)

Example Search_ex : Search 5 (fun i => 3 <=? i) = 3.
Proof. reflexivity. Qed.

Example SliceStable_ex : SliceStable Z.ltb [3; 1; 2; 1] = [1; 1; 2; 3].
Proof. reflexivity. Qed.

(** ** Wrap-around arithmetic *)

Section WrapLemmas.

Lemma wrap_small x : is_int x → wrap x = x.
Proof.
  unfold is_int, wrap, min_int, max_int, int_modulus, int_bits. intros H.
  rewrite Z.mod_small; lia.
Qed.

Lemma wrap_is_int x : is_int (wrap x).
Proof.
  unfold is_int, wrap, min_int, max_int, int_modulus, int_bits.
  pose proof (Z.mod_pos_bound (x + 2 ^ (64 - 1)) (2 ^ 64)). lia.
Qed.

Lemma wrap_add_l x y : wrap (wrap x + y) = wrap (x + y).
Proof.
  unfold wrap, int_modulus, int_bits.
  replace ((x + 2 ^ (64 - 1)) mod 2 ^ 64 - 2 ^ (64 - 1) + y + 2 ^ (64 - 1))
    with ((x + 2 ^ (64 - 1)) mod 2 ^ 64 + y) by lia.
  rewrite Zplus_mod_idemp_l. f_equal. f_equal. lia.
Qed.

Lemma wrap_add_r x y : wrap (x + wrap y) = wrap (x + y).
Proof. rewrite (Z.add_comm x), wrap_add_l. f_equal. lia. Qed.

Lemma wrap_congr x y : x mod int_modulus = y mod int_modulus → wrap x = wrap y.
Proof.
  unfold wrap. intros H. f_equal.
  rewrite <- (Zplus_mod_idemp_l x), <- (Zplus_mod_idemp_l y). by rewrite H.
Qed.

Lemma wrap_mod x : wrap x mod int_modulus = x mod int_modulus.
Proof.
  unfold wrap. rewrite Zminus_mod_idemp_l. f_equal. lia.
Qed.

Lemma wrap_mul_l x y : wrap (wrap x * y) = wrap (x * y).
Proof.
  apply wrap_congr. rewrite <- Zmult_mod_idemp_l, wrap_mod.
  by rewrite Zmult_mod_idemp_l.
Qed.

Lemma min_int_max_int : min_int = - max_int - 1.
Proof. done. Qed.

End WrapLemmas.

(** Closes a goal [op x y = r] where [op] is an [int] operation and [r] its
    exact result, when the context bounds [r] within the [int] range. *)
Ltac int_exact :=
  unfold int_add, int_sub, int_mul; apply wrap_small; unfold is_int;
  pose proof min_int_max_int; first [lia | nia].

(** ** Stable sorting by timestamp *)

Section SortLemmas.

Lemma insert_stable_perm {A} (less : A → A → bool) x l :
  insert_stable less x l ≡ₚ x :: l.
Proof.
  induction l as [|y l IH]; simpl; [done|].
  destruct (less y x); [|done].
  rewrite IH. apply Permutation_swap.
Qed.

Lemma SliceStable_perm {A} (less : A → A → bool) l : SliceStable less l ≡ₚ l.
Proof.
  induction l as [|x l IH]; simpl; [done|].
  by rewrite insert_stable_perm, IH.
Qed.

Lemma insert_stable_sorted x l :
  sorted_by_timestamp l → sorted_by_timestamp (insert_stable less_timestamp x l).
Proof.
  unfold sorted_by_timestamp.
  induction 1 as [|y l Hs IH Hy]; simpl.
  - repeat constructor.
  - unfold less_timestamp at 1, Before. destruct (Z.ltb_spec (Timestamp y) (Timestamp x)).
    + constructor; [done|].
      rewrite Forall_forall. intros z Hz.
      apply (elem_of_Permutation_proper _ _ _ (insert_stable_perm _ _ _)) in Hz.
      apply elem_of_cons in Hz as [->|Hz].
      * unfold timestamp_le. lia.
      * rewrite Forall_forall in Hy. by apply Hy.
    + constructor; [by constructor|].
      constructor; [done|].
      eapply Forall_impl; [exact Hy|]. unfold timestamp_le. intros; lia.
Qed.

Lemma SliceStable_sorted l : sorted_by_timestamp (SliceStable less_timestamp l).
Proof.
  induction l as [|x l IH]; simpl; [constructor|].
  by apply insert_stable_sorted.
Qed.

Lemma insert_stable_first x l :
  Forall (timestamp_le x) l → insert_stable less_timestamp x l = x :: l.
Proof.
  destruct 1 as [|y l Hy _]; simpl; [done|].
  unfold less_timestamp, Before. unfold timestamp_le in Hy.
  destruct (Z.ltb_spec (Timestamp y) (Timestamp x)); [lia|done].
Qed.

Lemma insert_last_bound y x l :
  timestamp_le y x → Forall (timestamp_le y) l → Forall (timestamp_le y) (insert_last x l).
Proof.
  intros Hx. induction 1 as [|z l Hz Hl IH]; simpl.
  - by constructor.
  - destruct (less_timestamp x z); repeat constructor; done.
Qed.

(** Appending a record to a sorted sequence and sorting stably puts the
    record behind the records of the same or an earlier instant. *)
Lemma SliceStable_snoc x l :
  sorted_by_timestamp l → SliceStable less_timestamp (l ++ [x]) = insert_last x l.
Proof.
  unfold sorted_by_timestamp.
  induction 1 as [|y l Hs IH Hy]; simpl; [done|].
  fold (SliceStable less_timestamp (l ++ [x])). rewrite IH.
  unfold less_timestamp at 2, Before.
  destruct (Z.ltb_spec (Timestamp x) (Timestamp y)) as [Hlt|Hle].
  - assert (insert_last x l = x :: l) as ->.
    { destruct Hy as [|z l Hz _]; simpl; [done|].
      unfold less_timestamp, Before. unfold timestamp_le in Hz.
      destruct (Z.ltb_spec (Timestamp x) (Timestamp z)); [done|lia]. }
    simpl. unfold less_timestamp at 1, Before.
    destruct (Z.ltb_spec (Timestamp x) (Timestamp y)); [|lia].
    by rewrite insert_stable_first.
  - apply insert_stable_first. by apply insert_last_bound.
Qed.

Lemma sorted_lookup_le l i j x y :
  sorted_by_timestamp l → l !! i = Some x → l !! j = Some y → (i ≤ j)%nat →
  Timestamp x <= Timestamp y.
Proof.
  unfold sorted_by_timestamp. intros Hs. revert i j.
  induction Hs as [|z l Hs IH Hz]; intros i j Hi Hj Hij; [done|].
  destruct i as [|i], j as [|j]; simpl in *; simplify_eq; try lia.
  - rewrite Forall_forall in Hz. apply Hz. by eapply list_elem_of_lookup_2.
  - eapply IH; eauto. lia.
Qed.

Lemma sorted_sublist l k :
  k `sublist_of` l → sorted_by_timestamp l → sorted_by_timestamp k.
Proof.
  unfold sorted_by_timestamp. intros Hsub Hs. revert k Hsub.
  induction Hs as [|z l Hs IH Hz]; intros k Hsub.
  - apply sublist_nil_r in Hsub as ->. constructor.
  - apply sublist_cons_r in Hsub as [Hsub|(k' & -> & Hsub)]; [by apply IH|].
    constructor; [by apply IH|].
    rewrite Forall_forall in Hz |- *. intros w Hw. apply Hz.
    by eapply elem_of_sublist.
Qed.

End SortLemmas.

(** ** Binary search *)

Section SearchLemmas.

Lemma search_loop_spec f i j :
  i <= j → monotone_on f i j →
  i <= search_loop f i j <= j ∧
  (∀ a, i <= a < search_loop f i j → f a = false) ∧
  (∀ a, search_loop f i j <= a < j → f a = true).
Proof.
  remember (Z.to_nat (j - i)) as m eqn:Hm. revert i j Hm.
  induction (lt_wf m) as [m _ IH]. intros i j -> Hij Hmono.
  rewrite search_loop_equation_1. simpl.
  destruct (Z_lt_dec i j) as [Hlt|Hge]; simpl.
  2:{ split; [lia|]. split; intros; lia. }
  assert (i <= (i + j) / 2 < j) as Hh
    by (split; [apply Z.div_le_lower_bound|apply Z.div_lt_upper_bound]; lia).
  destruct (f ((i + j) / 2)) eqn:Hfh; simpl;
    generalize dependent ((i + j) / 2); intros h Hh Hfh.
  - destruct (IH (Z.to_nat (h - i)) ltac:(lia) i h eq_refl ltac:(lia))
      as (Hr & Hlo & Hhi).
    { intros a b ? ? ? ?. apply (Hmono a b); [lia..|done]. }
    split; [lia|]. split; [done|].
    intros a Ha. destruct (Z_lt_dec a h); [apply Hhi; lia|].
    apply (Hmono h a); [lia..|done].
  - destruct (IH (Z.to_nat (j - (h + 1))) ltac:(lia) (h + 1) j eq_refl ltac:(lia))
      as (Hr & Hlo & Hhi).
    { intros a b ? ? ? ?. apply (Hmono a b); [lia..|done]. }
    split; [lia|]. split; [|done].
    intros a Ha. destruct (Z_lt_dec a (h + 1)); [|apply Hlo; lia].
    destruct (f a) eqn:Hfa; [|done].
    rewrite <- Hfh. symmetry. apply (Hmono a h); [lia..|done].
Qed.

Lemma Search_spec n f :
  0 <= n → monotone_on f 0 n →
  0 <= Search n f <= n ∧
  (∀ a, 0 <= a < Search n f → f a = false) ∧
  (∀ a, Search n f <= a < n → f a = true).
Proof. apply search_loop_spec. Qed.

Lemma filter_all {A} (P : A → Prop) `{!∀ x, Decision (P x)} (l : list A) :
  Forall P l → filter P l = l.
Proof.
  induction 1 as [|x l Hx _ IH]; [done|].
  by rewrite filter_cons_True, IH.
Qed.

Lemma filter_none {A} (P : A → Prop) `{!∀ x, Decision (P x)} (l : list A) :
  Forall (λ x, ¬ P x) l → filter P l = [].
Proof.
  induction 1 as [|x l Hx _ IH]; [done|].
  by rewrite filter_cons_False.
Qed.

(** An index that separates the records failing [P] from those satisfying
    it splits the list into the two filters. *)
Lemma split_at_boundary {A} (P : A → Prop) `{!∀ x, Decision (P x)} (l : list A) (r : nat) :
  (∀ a x, (a < r)%nat → l !! a = Some x → ¬ P x) →
  (∀ a x, (r ≤ a)%nat → l !! a = Some x → P x) →
  take r l = filter (λ x, ¬ P x) l ∧ drop r l = filter P l.
Proof.
  intros Hlo Hhi.
  assert (Forall (λ x, ¬ P x) (take r l)) as Ht.
  { apply Forall_lookup. intros a x Hax.
    destruct (decide (a < r)%nat) as [Ha|Ha].
    - apply (Hlo a); [done|]. by rewrite lookup_take_lt in Hax.
    - apply lookup_lt_Some in Hax. rewrite length_take in Hax. lia. }
  assert (Forall P (drop r l)) as Hd.
  { apply Forall_lookup. intros a x Hax. rewrite lookup_drop in Hax.
    apply (Hhi (r + a)%nat); [lia|done]. }
  rewrite <- (take_drop r l) at 2 4. rewrite !filter_app.
  split.
  - rewrite (filter_none (λ x, ¬ P x) (drop r l)), app_nil_r.
    + symmetry. by apply filter_all.
    + eapply Forall_impl; [exact Hd|]. naive_solver.
  - rewrite (filter_none P (take r l)); [|done]. simpl.
    symmetry. by apply filter_all.
Qed.

End SearchLemmas.

(** ** The range filter on a sorted sequence *)

Section RangeLemmas.

Lemma len_nonneg {A} (l : list A) : 0 <= len l.
Proof. unfold len. lia. Qed.

Lemma timestamp_at_lookup l i x :
  l !! i = Some x → timestamp_at l (Z.of_nat i) = Timestamp x.
Proof. unfold timestamp_at. rewrite Nat2Z.id. by intros ->. Qed.

Lemma lookup_index {A} (l : list A) (a : Z) :
  0 <= a < len l → ∃ x, l !! Z.to_nat a = Some x.
Proof.
  unfold len. intros Ha. apply lookup_lt_is_Some_2. lia.
Qed.

(** A test of the timestamp that is upward closed is monotone along a
    sorted sequence. *)
Lemma sorted_monotone l (g : Time → bool) :
  sorted_by_timestamp l →
  (∀ t u, t <= u → g t = true → g u = true) →
  monotone_on (λ i, g (timestamp_at l i)) 0 (len l).
Proof.
  intros Hs Hg a b Ha Hab Hb.
  destruct (lookup_index l a ltac:(lia)) as [x Hx].
  destruct (lookup_index l b ltac:(lia)) as [y Hy].
  unfold timestamp_at. rewrite Hx, Hy. apply Hg.
  eapply sorted_lookup_le; eauto. lia.
Qed.

Lemma start_index_spec l st :
  sorted_by_timestamp l →
  0 <= start_index l st <= len l ∧
  (∀ a x, (a < Z.to_nat (start_index l st))%nat → l !! a = Some x → ¬ from_start st x) ∧
  (∀ a x, (Z.to_nat (start_index l st) ≤ a)%nat → l !! a = Some x → from_start st x).
Proof.
  intros Hs. destruct st as [st|]; simpl.
  2:{ pose proof (len_nonneg l). split; [lia|]. split; [intros; lia|done]. }
  destruct (Search_spec (len l) (λ i, negb (Before (timestamp_at l i) st)))
    as (Hr & Hlo & Hhi).
  - apply len_nonneg.
  - apply (sorted_monotone l (λ t, negb (Before t st))); [done|].
    unfold Before. intros t u Htu. rewrite !negb_true_iff, !Z.ltb_ge. lia.
  - split; [done|]. split; intros a x Ha Hx.
    + specialize (Hlo (Z.of_nat a) ltac:(lia)). simpl in Hlo.
      rewrite (timestamp_at_lookup _ _ _ Hx) in Hlo.
      unfold Before in Hlo. rewrite negb_false_iff, Z.ltb_lt in Hlo. lia.
    + apply lookup_lt_Some in Hx as Hlen. unfold len in *.
      specialize (Hhi (Z.of_nat a) ltac:(lia)). simpl in Hhi.
      rewrite (timestamp_at_lookup _ _ _ Hx) in Hhi.
      unfold Before in Hhi. rewrite negb_true_iff, Z.ltb_ge in Hhi. done.
Qed.

Lemma end_index_spec l et :
  sorted_by_timestamp l →
  0 <= end_index l et <= len l ∧
  (∀ a x, (a < Z.to_nat (end_index l et))%nat → l !! a = Some x → ¬ past_end et x) ∧
  (∀ a x, (Z.to_nat (end_index l et) ≤ a)%nat → l !! a = Some x → past_end et x).
Proof.
  intros Hs. destruct et as [et|]; simpl.
  2:{ pose proof (len_nonneg l). split; [lia|]. split; [naive_solver|].
      intros a x Ha Hx. apply lookup_lt_Some in Hx. unfold len in *. lia. }
  destruct (Search_spec (len l) (λ i, After (timestamp_at l i) et))
    as (Hr & Hlo & Hhi).
  - apply len_nonneg.
  - apply (sorted_monotone l (λ t, After t et)); [done|].
    unfold After. intros t u Htu. rewrite !Z.gtb_ltb, !Z.ltb_lt. lia.
  - split; [done|]. split; intros a x Ha Hx.
    + specialize (Hlo (Z.of_nat a) ltac:(lia)). simpl in Hlo.
      rewrite (timestamp_at_lookup _ _ _ Hx) in Hlo.
      unfold After in Hlo. rewrite Z.gtb_ltb, Z.ltb_ge in Hlo. lia.
    + apply lookup_lt_Some in Hx as Hlen. unfold len in *.
      specialize (Hhi (Z.of_nat a) ltac:(lia)). simpl in Hhi.
      rewrite (timestamp_at_lookup _ _ _ Hx) in Hhi.
      unfold After in Hhi. rewrite Z.gtb_ltb, Z.ltb_lt in Hhi. done.
Qed.

Lemma in_range_split st et r : in_range st et r ↔ from_start st r ∧ ¬ past_end et r.
Proof. unfold in_range, from_start, past_end. destruct st, et; intuition lia. Qed.

(** With the start not after the end, the two indices are in order. *)
Lemma index_order l st et :
  sorted_by_timestamp l → range_ok st et → start_index l st <= end_index l et.
Proof.
  intros Hs Hok.
  destruct (start_index_spec l st Hs) as (Hr1 & Hlo1 & _).
  destruct (end_index_spec l et Hs) as (Hr2 & _ & Hhi2).
  destruct (Z_le_gt_dec (start_index l st) (end_index l et)) as [|Hgt]; [done|].
  destruct (lookup_index l (end_index l et) ltac:(lia)) as [x Hx].
  specialize (Hlo1 (Z.to_nat (end_index l et)) x ltac:(lia) Hx).
  specialize (Hhi2 (Z.to_nat (end_index l et)) x ltac:(lia) Hx).
  unfold from_start, past_end, range_ok in *. destruct st, et; try done. lia.
Qed.

(** The records between the two indices are the records in the range. *)
Lemma range_window l st et :
  sorted_by_timestamp l → range_ok st et →
  take (Z.to_nat (end_index l et - start_index l st)) (drop (Z.to_nat (start_index l st)) l)
  = filter (in_range st et) l.
Proof.
  intros Hs Hok.
  pose proof (index_order l st et Hs Hok) as Hord.
  destruct (start_index_spec l st Hs) as (Hr1 & Hlo1 & Hhi1).
  destruct (end_index_spec l et Hs) as (Hr2 & Hlo2 & Hhi2).
  rewrite (list_filter_iff _ (λ r, from_start st r ∧ (λ r, ¬ past_end et r) r))
    by apply in_range_split.
  rewrite <- list_filter_filter.
  destruct (split_at_boundary (past_end et) l (Z.to_nat (end_index l et)) Hlo2 Hhi2)
    as [<- _].
  destruct (split_at_boundary (from_start st) (take (Z.to_nat (end_index l et)) l)
              (Z.to_nat (start_index l st))) as [_ <-].
  - intros a x Ha Hx. apply (Hlo1 a x Ha).
    rewrite lookup_take_lt in Hx; [done|lia].
  - intros a x Ha Hx. apply (Hhi1 a x Ha).
    apply lookup_lt_Some in Hx as Hlen. rewrite length_take in Hlen.
    rewrite lookup_take_lt in Hx; [done|lia].
  - rewrite take_drop_commute. do 2 f_equal. lia.
Qed.

Lemma range_count l st et :
  sorted_by_timestamp l → range_ok st et →
  end_index l et - start_index l st = len (filter (in_range st et) l).
Proof.
  intros Hs Hok. rewrite <- (range_window l st et Hs Hok).
  pose proof (index_order l st et Hs Hok).
  destruct (start_index_spec l st Hs) as (Hr1 & _).
  destruct (end_index_spec l et Hs) as (Hr2 & _).
  unfold len in *. rewrite length_take, length_drop. lia.
Qed.

End RangeLemmas.

(** ** The mutators, seen through [ledger_of] *)

Section StoreLemmas.

Lemma lookup_or_create_fst s u : (lookup_or_create s u).1 = ledger_of s u.
Proof. unfold lookup_or_create, ledger_of. by destruct (s !! u). Qed.

Lemma lookup_or_create_snd s u u' :
  ledger_of (lookup_or_create s u).2 u' = ledger_of s u'.
Proof.
  unfold lookup_or_create, ledger_of. destruct (s !! u) eqn:Hu; simpl; [done|].
  destruct (decide (u = u')) as [<-|Hne].
  - by rewrite lookup_insert_eq, Hu.
  - by rewrite lookup_insert_ne.
Qed.

Lemma ledger_of_insert (s : LedgerStore) u l u' :
  ledger_of (<[u := l]> s) u' = if decide (u = u') then l else ledger_of s u'.
Proof.
  unfold ledger_of. destruct (decide (u = u')) as [<-|Hne].
  - by rewrite lookup_insert_eq.
  - by rewrite lookup_insert_ne.
Qed.

Lemma GetBalance_balance_of s u : GetBalance s u = (balance_of s u, None).
Proof. unfold GetBalance, balance_of, ledger_of. by destruct (s !! u). Qed.

Lemma AddTransaction_rejected s u ty amt d id now :
  insufficient s u ty amt = true →
  AddTransaction s u ty amt d id now
  = ((lookup_or_create s u).2, (zero_record, Some "insufficient funds"%string)).
Proof.
  unfold insufficient, balance_of, AddTransaction. rewrite <- lookup_or_create_fst.
  destruct (lookup_or_create s u) as [l s']. simpl. by intros ->.
Qed.

Lemma AddTransaction_accepted s u ty amt d id now :
  insufficient s u ty amt = false →
  AddTransaction s u ty amt d id now
  = (<[u := applied (ledger_of s u) (NewTransactionRecord ty amt d id now)]>
       (lookup_or_create s u).2,
     (NewTransactionRecord ty amt d id now, None)).
Proof.
  unfold insufficient, balance_of, AddTransaction. rewrite <- lookup_or_create_fst.
  destruct (lookup_or_create s u) as [l s']. simpl. by intros ->.
Qed.

Lemma AddTransaction_other s u ty amt d id now u' :
  u ≠ u' → ledger_of (AddTransaction s u ty amt d id now).1 u' = ledger_of s u'.
Proof.
  intros Hne. destruct (insufficient s u ty amt) eqn:Hi.
  - rewrite AddTransaction_rejected by done. apply lookup_or_create_snd.
  - rewrite AddTransaction_accepted by done. simpl.
    rewrite ledger_of_insert, decide_False by done. apply lookup_or_create_snd.
Qed.

Lemma AddTransaction_same s u ty amt d id now :
  ledger_of (AddTransaction s u ty amt d id now).1 u
  = if insufficient s u ty amt then ledger_of s u
    else applied (ledger_of s u) (NewTransactionRecord ty amt d id now).
Proof.
  destruct (insufficient s u ty amt) eqn:Hi.
  - rewrite AddTransaction_rejected by done. apply lookup_or_create_snd.
  - rewrite AddTransaction_accepted by done. simpl.
    by rewrite ledger_of_insert, decide_True.
Qed.

Lemma AddTransaction_error s u ty amt d id now :
  (AddTransaction s u ty amt d id now).2.2
  = if insufficient s u ty amt then Some "insufficient funds"%string else None.
Proof.
  destruct (insufficient s u ty amt) eqn:Hi.
  - by rewrite AddTransaction_rejected.
  - by rewrite AddTransaction_accepted.
Qed.

Lemma AddTransactionWithTime_eq s u tx :
  AddTransactionWithTime s u tx
  = <[u := applied_with_time (ledger_of s u) tx]> (lookup_or_create s u).2.
Proof.
  unfold AddTransactionWithTime. rewrite <- lookup_or_create_fst.
  by destruct (lookup_or_create s u) as [l s'].
Qed.

Lemma AddTransactionWithTime_same s u tx :
  ledger_of (AddTransactionWithTime s u tx) u = applied_with_time (ledger_of s u) tx.
Proof. by rewrite AddTransactionWithTime_eq, ledger_of_insert, decide_True. Qed.

Lemma AddTransactionWithTime_other s u tx u' :
  u ≠ u' → ledger_of (AddTransactionWithTime s u tx) u' = ledger_of s u'.
Proof.
  intros Hne. rewrite AddTransactionWithTime_eq, ledger_of_insert, decide_False by done.
  apply lookup_or_create_snd.
Qed.


Lemma Qltb_ge a b : Qltb a b = false ↔ (b <= a)%Q.
Proof.
  unfold Qltb. rewrite negb_false_iff. apply Qle_bool_iff.
Qed.


Lemma every_state_sorted s :
  reachable s → ∀ u, sorted_by_timestamp (transactions_of s u).
Proof.
  unfold transactions_of.
  induction 1 as [|s u ty amt d id now Hs IH|s u tx Hs IH]; intros u'.
  - unfold ledger_of, NewLedgerStore. rewrite lookup_empty. constructor.
  - destruct (decide (u = u')) as [<-|Hne].
    + rewrite AddTransaction_same. destruct (insufficient s u ty amt); [done|].
      apply SliceStable_sorted.
    + by rewrite AddTransaction_other.
  - destruct (decide (u = u')) as [<-|Hne].
    + rewrite AddTransactionWithTime_same. apply SliceStable_sorted.
    + by rewrite AddTransactionWithTime_other.
Qed.

End StoreLemmas.

(** ** Pagination without overflow *)

Section PageLemmas.

Lemma slice_Some {A} (l : list A) lo hi :
  0 <= lo → lo <= hi → hi <= len l →
  slice l lo hi = Some (take (Z.to_nat (hi - lo)) (drop (Z.to_nat lo) l)).
Proof.
  intros H1 H2 H3. unfold slice.
  destruct (Z.leb_spec 0 lo); [|lia]. destruct (Z.leb_spec lo hi); [|lia].
  destruct (Z.leb_spec hi (len l)); [|lia]. done.
Qed.

Lemma slice_inv {A} (l : list A) lo hi k :
  slice l lo hi = Some k →
  0 <= lo ∧ lo <= hi ∧ hi <= len l ∧
  k = take (Z.to_nat (hi - lo)) (drop (Z.to_nat lo) l).
Proof.
  unfold slice.
  destruct (Z.leb_spec 0 lo); [|done]. destruct (Z.leb_spec lo hi); [|done].
  destruct (Z.leb_spec hi (len l)); [|done]. simpl. by intros [= <-].
Qed.

Lemma make_check_Some n : 0 <= n → make_check n = Some tt.
Proof. unfold make_check. by destruct (Z.ltb_spec n 0); [lia|]. Qed.

Lemma make_check_inv n : make_check n = Some tt → 0 <= n.
Proof. unfold make_check. by destruct (Z.ltb_spec n 0). Qed.

(** A page of a window of a list is a window of the list. *)
Lemma page_window {A} (l : list A) (lo m k sz : nat) :
  take sz (drop k (take m (drop lo l))) = take (sz `min` (m - k)) (drop (lo + k) l).
Proof.
  destruct (decide (k ≤ m)%nat) as [Hkm|Hkm].
  - replace m with (k + (m - k))%nat at 1 by lia.
    rewrite <- take_drop_commute, take_take, drop_drop. done.
  - rewrite (drop_ge (take m _)) by (rewrite length_take; lia).
    replace (m - k)%nat with 0%nat by lia.
    by rewrite Nat.min_0_r, take_0, take_nil.
Qed.

(** [GetPaginatedTransactions] with its indices named. *)
Lemma GetPaginatedTransactions_unfold s u l st et page pageSize :
  s !! u = Some l →
  GetPaginatedTransactions s u st et page pageSize =
  let lo := start_index (transactions l) st in
  let hi := end_index (transactions l) et in
  let page := if page <? 1 then 1 else page in
  let pageStartIdx := int_add lo (int_mul (int_sub page 1) pageSize) in
  let pageEndIdx := int_add pageStartIdx pageSize in
  if pageStartIdx >=? hi then
    Some {| Transactions := []; TotalCount := int_sub hi lo |}
  else
    let pageEndIdx := if pageEndIdx >? hi then hi else pageEndIdx in
    _ ← make_check (int_sub pageEndIdx pageStartIdx);
    pageTransactions ← slice (transactions l) pageStartIdx pageEndIdx;
    Some {| Transactions := pageTransactions; TotalCount := int_sub hi lo |}.
Proof.
  intros Hl. unfold GetPaginatedTransactions. rewrite Hl.
  unfold start_index, end_index. by destruct st, et.
Qed.

Lemma int_ops_fit n lo page pageSize :
  0 <= lo <= n → n <= max_int → page_fits n page pageSize →
  int_sub page 1 = page - 1 ∧
  int_mul (page - 1) pageSize = (page - 1) * pageSize ∧
  int_add lo ((page - 1) * pageSize) = lo + (page - 1) * pageSize ∧
  int_add (lo + (page - 1) * pageSize) pageSize = lo + (page - 1) * pageSize + pageSize ∧
  0 <= (page - 1) * pageSize.
Proof.
  unfold page_fits, int_sub, int_mul, int_add. intros Hlo Hn (Hp & Hs & Hb).
  assert (0 <= (page - 1) * pageSize) by nia.
  assert ((page - 1) * pageSize + pageSize = page * pageSize) by lia.
  assert (min_int < 0) by done.
  rewrite !wrap_small; [done|unfold is_int; lia..].
Qed.

(** Without overflow the result is the window of indices that the page
    arithmetic over exact integers selects. *)
Lemma GetPaginatedTransactions_indices s u l st et page pageSize :
  s !! u = Some l → sorted_by_timestamp (transactions l) →
  page_fits (len (transactions l)) page pageSize →
  GetPaginatedTransactions s u st et page pageSize
  = Some {| Transactions :=
              index_page (transactions l) (start_index (transactions l) st)
                (end_index (transactions l) et) page pageSize;
            TotalCount := end_index (transactions l) et - start_index (transactions l) st |}.
Proof.
  intros Hl Hs Hfit.
  rewrite (GetPaginatedTransactions_unfold _ _ _ _ _ _ _ Hl). lazy zeta.
  destruct (start_index_spec (transactions l) st Hs) as (Hlo & _).
  destruct (end_index_spec (transactions l) et Hs) as (Hhi & _).
  unfold index_page.
  set (lo := start_index (transactions l) st) in *.
  set (hi := end_index (transactions l) et) in *.
  assert (len (transactions l) <= max_int) as Hn
    by (destruct Hfit as (? & ? & ?); nia).
  destruct (int_ops_fit _ lo page pageSize Hlo Hn Hfit) as (E1 & E2 & E3 & E4 & Hk).
  destruct Hfit as (Hp & Hsz & Hb).
  destruct (Z.ltb_spec page 1); [lia|].
  rewrite E1, E2, E3, E4.
  assert (int_sub hi lo = hi - lo) as -> by int_exact.
  set (k := (page - 1) * pageSize) in *.
  destruct (Z.geb_spec (lo + k) hi) as [Hge|Hlt]; [done|].
  set (e := if lo + k + pageSize >? hi then hi else lo + k + pageSize).
  assert (e = Z.min (lo + k + pageSize) hi) as He.
  { unfold e. rewrite Z.gtb_ltb. destruct (Z.ltb_spec hi (lo + k + pageSize)); lia. }
  assert (int_sub e (lo + k) = e - (lo + k)) as -> by int_exact.
  rewrite make_check_Some by lia. simpl.
  rewrite slice_Some by lia. simpl. by rewrite He.
Qed.

(** With the start not after the end, the window of indices is the page of
    the records in the range. *)
Lemma index_page_filter l st et page pageSize :
  sorted_by_timestamp l → range_ok st et → 1 <= page → 0 <= pageSize →
  index_page l (start_index l st) (end_index l et) page pageSize
  = page_of (filter (in_range st et) l) page pageSize.
Proof.
  intros Hs Hok Hp Hsz.
  pose proof (index_order _ st et Hs Hok) as Hord.
  destruct (start_index_spec l st Hs) as (Hlo & _).
  destruct (end_index_spec l et Hs) as (Hhi & _).
  unfold page_of, index_page. rewrite <- (range_window _ st et Hs Hok).
  set (lo := start_index l st) in *. set (hi := end_index l et) in *.
  assert (0 <= (page - 1) * pageSize) as Hk by nia.
  set (k := (page - 1) * pageSize) in *. unfold len in *.
  destruct (Z.geb_spec (lo + k) hi) as [Hge|Hlt].
  - rewrite drop_ge; [by rewrite take_nil|]. rewrite length_take. lia.
  - rewrite page_window. f_equal; [lia|f_equal; lia].
Qed.

Lemma GetPaginatedTransactions_fits s u st et page pageSize :
  sorted_by_timestamp (transactions_of s u) → range_ok st et →
  page_fits (len (transactions_of s u)) page pageSize →
  GetPaginatedTransactions s u st et page pageSize
  = Some {| Transactions := page_of (filter (in_range st et) (transactions_of s u)) page pageSize;
            TotalCount := len (filter (in_range st et) (transactions_of s u)) |}.
Proof.
  unfold transactions_of, ledger_of. intros Hs Hok Hfit.
  destruct (s !! u) as [l|] eqn:Hl; simpl in *.
  - rewrite (GetPaginatedTransactions_indices _ _ _ _ _ _ _ Hl Hs Hfit).
    destruct Hfit as (Hp & Hsz & _).
    rewrite index_page_filter by (done || lia).
    by rewrite (range_count _ st et Hs Hok).
  - unfold GetPaginatedTransactions. rewrite Hl. unfold page_of.
    rewrite filter_nil. by rewrite drop_nil, take_nil.
Qed.

(** Whatever the arguments, a result is the empty page or a window of the
    sequence that starts at the wrapped page start. *)
Lemma GetPaginatedTransactions_inv s u l st et page pageSize r :
  s !! u = Some l →
  GetPaginatedTransactions s u st et page pageSize = Some r →
  let hi := end_index (transactions l) et in
  let p := if page <? 1 then 1 else page in
  let a := int_add (start_index (transactions l) st) (int_mul (int_sub p 1) pageSize) in
  let e := int_add a pageSize in
  TotalCount r = int_sub hi (start_index (transactions l) st) ∧
  ((hi <= a ∧ Transactions r = []) ∨
   (0 <= a < hi ∧
    ∃ b, b = (if e >? hi then hi else e) ∧ a <= b ∧ b <= len (transactions l) ∧
         Transactions r = take (Z.to_nat (b - a)) (drop (Z.to_nat a) (transactions l)))).
Proof.
  intros Hl. rewrite (GetPaginatedTransactions_unfold _ _ _ _ _ _ _ Hl). lazy zeta.
  set (hi := end_index (transactions l) et).
  set (a := int_add _ _). set (e := int_add a pageSize).
  destruct (Z.geb_spec a hi) as [Hge|Hlt].
  - intros [= <-]. simpl. split; [done|]. left. done.
  - destruct (make_check _) as [[]|]; [|done]. simpl.
    destruct (slice _ _ _) as [k|] eqn:Hk; [|done]. simpl. intros [= <-]. simpl.
    split; [done|]. right.
    apply slice_inv in Hk as (H0 & Hab & Hb & ->).
    split; [lia|]. eexists. split; [reflexivity|]. done.
Qed.

End PageLemmas.

(** ** Balances *)

Section BalanceClaims.

Lemma sum_amounts_cons u t c calls :
  sum_amounts u t (c :: calls)
  = if String.eqb (call_user c) u && String.eqb (call_type c) t
    then (call_amount c + sum_amounts u t calls)%Q
    else sum_amounts u t calls.
Proof. done. Qed.

(** One accepted call moves the balance of its account by the amount, up
    for a deposit and down for a withdrawal, and leaves the others alone. *)
Lemma balance_of_step s c u :
  (call_user c = u → valid_type (call_type c)) →
  insufficient s (call_user c) (call_type c) (call_amount c) = false →
  (balance_of (do_call s c).1 u
   == balance_of s u + sum_amounts u Deposit [c] - sum_amounts u Withdrawal [c])%Q.
Proof.
  intros Hv Hi. unfold balance_of, do_call. simpl.
  destruct (decide (call_user c = u)) as [Hu|Hu].
  - subst u. rewrite AddTransaction_same, Hi. simpl.
    rewrite String.eqb_refl. simpl.
    destruct (Hv eq_refl) as [-> | ->]; simpl; lra.
  - rewrite AddTransaction_other by done.
    apply String.eqb_neq in Hu. rewrite Hu. simpl. lra.
Qed.

Lemma balance_of_rejected s c u :
  insufficient s (call_user c) (call_type c) (call_amount c) = true →
  balance_of (do_call s c).1 u = balance_of s u.
Proof.
  intros Hi. unfold balance_of, do_call.
  rewrite AddTransaction_rejected by done. simpl. by rewrite lookup_or_create_snd.
Qed.

Lemma succeeded_cons s c calls :
  succeeded s (c :: calls)
  = if insufficient s (call_user c) (call_type c) (call_amount c)
    then succeeded (do_call s c).1 calls
    else c :: succeeded (do_call s c).1 calls.
Proof.
  cbn [succeeded]. lazy zeta. unfold do_call at 1. rewrite AddTransaction_error.
  by destruct (insufficient s _ _ _).
Qed.

Lemma balance_of_run s calls u :
  (∀ c, c ∈ calls → call_user c = u → valid_type (call_type c)) →
  (balance_of (run_calls s calls) u
   == balance_of s u + sum_amounts u Deposit (succeeded s calls)
      - sum_amounts u Withdrawal (succeeded s calls))%Q.
Proof.
  revert s. induction calls as [|c calls IH]; intros s Hv.
  - simpl. lra.
  - assert (∀ c', c' ∈ calls → call_user c' = u → valid_type (call_type c')) as Hv'
      by (intros; apply Hv; [by right|done]).
    specialize (IH (do_call s c).1 Hv'). cbn [run_calls]. rewrite IH.
    rewrite succeeded_cons.
    destruct (insufficient s _ _ _) eqn:Hi.
    + by rewrite balance_of_rejected.
    + rewrite !sum_amounts_cons.
      pose proof (balance_of_step s c u (Hv c ltac:(by left)) Hi) as Hstep.
      simpl in Hstep. rewrite Hstep.
      destruct (_ && String.eqb _ Deposit), (_ && String.eqb _ Withdrawal); lra.
Qed.

Lemma run_calls_as_ops s calls : run_calls s calls = run_ops s (OpAdd <$> calls).
Proof.
  revert s. induction calls as [|c calls IH]; intros s; [done|].
  rewrite fmap_cons. simpl. apply IH.
Qed.

Lemma whole_inject a : whole a → (a == inject_Z (Qnum a))%Q.
Proof. destruct a as [n d]. unfold whole. simpl. intros ->. reflexivity. Qed.

(** What one operation does to the balance of an account. *)
Lemma balance_of_do_op s op u :
  balance_of (do_op s op) u = balance_of s u ∨
  op_user op = u ∧
  ((balance_of (do_op s op) u == balance_of s u + op_amount op)%Q ∨
   (balance_of (do_op s op) u == balance_of s u - op_amount op)%Q).
Proof.
  unfold balance_of. destruct op as [c|u' tx]; simpl.
  - unfold do_call. destruct (decide (call_user c = u)) as [<-|Hne];
      [|left; by rewrite AddTransaction_other].
    rewrite AddTransaction_same. destruct (insufficient s _ _ _); [by left|].
    right. split; [done|]. simpl. destruct (String.eqb _ Deposit); [left|right]; lra.
  - destruct (decide (u' = u)) as [<-|Hne];
      [|left; by rewrite AddTransactionWithTime_other].
    rewrite AddTransactionWithTime_same. simpl.
    destruct (String.eqb _ Deposit); [right; split; [done|left; lra]|].
    destruct (String.eqb _ Withdrawal); [right; split; [done|right; lra]|by left].
Qed.

(** With whole amounts every balance is a whole number, of a magnitude
    that the magnitudes of the amounts bound. *)
Lemma whole_balance_run ops s u n0 :
  (balance_of s u == inject_Z n0)%Q →
  Forall (λ op, op_user op = u → whole (op_amount op)) ops →
  ∃ n, (balance_of (run_ops s ops) u == inject_Z n)%Q ∧
       Z.abs n <= Z.abs n0 + magnitude u ops.
Proof.
  intros Hn0 Hw. revert s n0 Hn0.
  induction Hw as [|op ops Hop _ IH]; intros s n0 Hn0.
  - exists n0. simpl. split; [done|lia].
  - cbn [run_ops magnitude].
    destruct (balance_of_do_op s op u) as [E|[Hu [E|E]]].
    + destruct (IH (do_op s op) n0) as (n & Hn & Hb); [by rewrite E|].
      exists n. split; [done|]. destruct (String.eqb _ _); lia.
    + pose proof (whole_inject _ (Hop Hu)) as Ha.
      destruct (IH (do_op s op) (n0 + Qnum (op_amount op))) as (n & Hn & Hb).
      { rewrite E, Hn0, inject_Z_plus, <- Ha. reflexivity. }
      exists n. split; [done|].
      apply String.eqb_eq in Hu. rewrite Hu. lia.
    + pose proof (whole_inject _ (Hop Hu)) as Ha.
      destruct (IH (do_op s op) (n0 - Qnum (op_amount op))) as (n & Hn & Hb).
      { rewrite E, Hn0. unfold Z.sub. rewrite inject_Z_plus, inject_Z_opp, <- Ha.
        reflexivity. }
      exists n. split; [done|].
      apply String.eqb_eq in Hu. rewrite Hu. lia.
Qed.

Lemma whole_balance_fresh ops u :
  exact_ops u ops →
  ∃ n, (balance_of (run_ops NewLedgerStore ops) u == inject_Z n)%Q ∧
       Z.abs n <= exact_bound.
Proof.
  intros [Hw Hm].
  destruct (whole_balance_run ops NewLedgerStore u 0) as (n & Hn & Hb); [|done|].
  - unfold balance_of, ledger_of, NewLedgerStore. rewrite lookup_empty. reflexivity.
  - exists n. split; [done|]. simpl in Hb. lia.
Qed.

(** C1, as stated, fails: the kind is a string, and a call of a kind that
    is neither [Deposit] nor [Withdrawal] succeeds and lowers the balance.
    A call of kind refund with amount 5 on a fresh account succeeds and
    leaves the balance at -5, while there is no deposit and no withdrawal
    among the calls that succeeded. *)
Lemma balance_conservation_counterexample :
  let calls := [ mkAddCall "alice" "refund" 5 "x" 1%N 1 ] in
  succeeded NewLedgerStore calls = calls ∧
  (GetBalance (run_calls NewLedgerStore calls) "alice").1 = (-5)%Q ∧
  (sum_amounts "alice" Deposit (succeeded NewLedgerStore calls)
   - sum_amounts "alice" Withdrawal (succeeded NewLedgerStore calls))%Q = 0%Q.
Proof. by vm_compute. Qed.

(** C1, amended. Balance conservation: after any sequence of
    [AddTransaction] calls on a fresh store whose calls on the account have
    a kind of the enumeration and amounts on which the arithmetic of
    [float64] is exact (whole numbers whose magnitudes add up to at most
    [2^53]), the balance [GetBalance] returns for the account is the sum of
    the amounts of its deposits that succeeded minus the sum of the amounts
    of its withdrawals that succeeded; calls that failed contribute
    nothing. That balance is a whole number of magnitude at most [2^53]. *)
Theorem balance_conservation (calls : list AddCall) (userId : string) :
  (∀ c, c ∈ calls → call_user c = userId → valid_type (call_type c)) →
  exact_ops userId (OpAdd <$> calls) →
  ((GetBalance (run_calls NewLedgerStore calls) userId).1
   == sum_amounts userId Deposit (succeeded NewLedgerStore calls)
      - sum_amounts userId Withdrawal (succeeded NewLedgerStore calls))%Q ∧
  ∃ n, ((GetBalance (run_calls NewLedgerStore calls) userId).1 == inject_Z n)%Q ∧
       Z.abs n <= exact_bound.
Proof.
  intros Hv Hexact. rewrite GetBalance_balance_of. simpl. split.
  - rewrite (balance_of_run _ _ _ Hv).
    unfold balance_of, ledger_of, NewLedgerStore. rewrite lookup_empty. simpl. lra.
  - rewrite run_calls_as_ops. by apply whole_balance_fresh.
Qed.

Lemma balance_conservation_witness :
  ((GetBalance (run_calls NewLedgerStore calls_example) "alice").1
   == sum_amounts "alice" Deposit (succeeded NewLedgerStore calls_example)
      - sum_amounts "alice" Withdrawal (succeeded NewLedgerStore calls_example))%Q
  ∧ succeeded NewLedgerStore calls_example
    = [ mkAddCall "alice" Deposit 100 "pay" 1%N 10;
        mkAddCall "alice" Withdrawal 30 "food" 3%N 30 ].
Proof.
  split; [|reflexivity].
  apply (balance_conservation calls_example "alice").
  - intros c Hc _. unfold calls_example in Hc.
    repeat (apply elem_of_cons in Hc as [-> | Hc]); [by left|by right|by right|].
    by apply elem_of_nil in Hc.
  - split; [|by vm_compute]. unfold calls_example. by repeat constructor.
Defined.

(** Every state the restricted operations reach keeps every balance at or
    above zero. *)
Lemma covered_nonneg s : reachable_covered s → ∀ u, (0 <= balance_of s u)%Q.
Proof.
  unfold balance_of.
  induction 1 as [|s u ty amt d id now Hs IH Hv Hamt|s u tx Hs IH Hc]; intros u'.
  - unfold ledger_of, NewLedgerStore. rewrite lookup_empty. simpl. lra.
  - destruct (decide (u = u')) as [<-|Hne]; [|by rewrite AddTransaction_other].
    rewrite AddTransaction_same. specialize (IH u).
    destruct (insufficient s u ty amt) eqn:Hi; [done|]. simpl.
    unfold insufficient in Hi.
    destruct Hv as [-> | ->]; simpl in *.
    + lra.
    + apply Qltb_ge in Hi. unfold balance_of in Hi. lra.
  - destruct (decide (u = u')) as [<-|Hne]; [|by rewrite AddTransactionWithTime_other].
    rewrite AddTransactionWithTime_same. specialize (IH u). simpl.
    destruct Hc as [Hd Hw]. unfold balance_of in Hw.
    destruct (String.eqb_spec (TxType tx) Deposit) as [E|_]; [specialize (Hd E); lra|].
    destruct (String.eqb_spec (TxType tx) Withdrawal) as [E|_]; [specialize (Hw E); lra|].
    done.
Qed.


(** C2, as stated, fails: [AddTransactionWithTime] checks no funds, so a
    withdrawal of 50 seeded into a fresh account leaves the balance at -50
    in a reachable state. *)
Lemma no_overdraft_counterexample :
  reachable overdrawn_store ∧ ((GetBalance overdrawn_store "alice").1 < 0)%Q.
Proof.
  split; [|reflexivity].
  apply reachable_add_with_time, reachable_new.
Qed.

(** C2, amended. In every store state reachable by [AddTransaction] calls
    with a kind of the enumeration and a non-negative amount, and by
    [AddTransactionWithTime] calls whose record is covered (a deposit of a
    non-negative amount, or a withdrawal that does not exceed the balance),
    every account's balance is at least zero. *)
Theorem no_overdraft (s : LedgerStore) (userId : string) :
  reachable_covered s → (0 <= (GetBalance s userId).1)%Q.
Proof.
  intros Hs. rewrite GetBalance_balance_of. simpl. by apply covered_nonneg.
Qed.

Lemma no_overdraft_witness :
  (0 <= (GetBalance (run_calls NewLedgerStore calls_example) "alice").1)%Q.
Proof.
  apply (no_overdraft (run_calls NewLedgerStore calls_example) "alice").
  unfold calls_example. cbn [run_calls do_call call_user call_type call_amount
    call_description call_id call_now].
  repeat (apply reachable_covered_add; [|by (left + right)|by vm_compute]).
  apply reachable_covered_new.
Defined.



(** C7. An account that no operation on the store has named has balance 0
    and no error; and [GetBalance] returns no error for any identifier in
    any state. *)
Theorem unknown_account_zero (ops : list Op) (userId : string) :
  userId ∉ (op_user <$> ops) →
  GetBalance (run_ops NewLedgerStore ops) userId = (0%Q, None) ∧
  ∀ (s : LedgerStore) (u : string), (GetBalance s u).2 = None.
Proof.
  intros Hu. split; [|intros s u; by rewrite GetBalance_balance_of].
  rewrite GetBalance_balance_of. f_equal. unfold balance_of.
  assert (∀ s, ledger_of (run_ops s ops) userId = ledger_of s userId) as ->.
  { induction ops as [|op ops IH]; intros s; [done|]. simpl.
    rewrite fmap_cons, not_elem_of_cons in Hu. destruct Hu as [Hne Hu].
    rewrite (IH Hu). destruct op as [c|u tx]; simpl in *.
    - unfold do_call. by apply AddTransaction_other.
    - by apply AddTransactionWithTime_other. }
  unfold ledger_of, NewLedgerStore. by rewrite lookup_empty.
Qed.

Lemma unknown_account_zero_witness :
  GetBalance (run_ops NewLedgerStore ops_example) "bob" = (0%Q, None).
Proof.
  apply (unknown_account_zero ops_example "bob").
  unfold ops_example. rewrite !fmap_cons, fmap_nil. simpl.
  rewrite !not_elem_of_cons. repeat split; try done. apply not_elem_of_nil.
Defined.

End BalanceClaims.

(** ** Range filter, pagination and order *)

Section PageClaims.

Lemma reachable_run_calls s calls : reachable s → reachable (run_calls s calls).
Proof.
  revert s. induction calls as [|c calls IH]; intros s Hs; [done|].
  simpl. apply IH. unfold do_call. by apply reachable_add.
Qed.

Lemma reachable_three_deposits : reachable three_deposits.
Proof. apply reachable_run_calls, reachable_new. Qed.

Lemma reachable_one_deposit : reachable one_deposit.
Proof. apply reachable_add, reachable_new. Qed.

(** C4, as stated, fails: with a start after the end no record is in the
    range, and the total count of the three-record account is -1, not 0. *)
Lemma range_filter_counterexample :
  reachable three_deposits ∧
  filter (in_range (Some 3) (Some 1)) (transactions_of three_deposits "alice") = [] ∧
  TotalCount <$> GetPaginatedTransactions three_deposits "alice" (Some 3) (Some 1) 1 10
  = Some (-1).
Proof.
  split; [apply reachable_three_deposits|]. split; reflexivity.
Qed.

(** C4, amended. In a reachable state, for a start that is not after the
    end when both are given (the guard of the service layer), the total
    count is the number of records [r] of the account such that
    ([startTime] is absent or [r.Timestamp >= startTime]) and ([endTime] is
    absent or [r.Timestamp <= endTime]); and for arguments that do not
    overflow, the page returned is the page of exactly those records. *)
Theorem range_filter (s : LedgerStore) (userId : string) (startTime endTime : option Time)
    (page pageSize : Z) :
  reachable s → range_ok startTime endTime →
  len (transactions_of s userId) <= max_int →
  let inside := filter (in_range startTime endTime) (transactions_of s userId) in
  (∀ r, GetPaginatedTransactions s userId startTime endTime page pageSize = Some r →
        TotalCount r = len inside) ∧
  (page_fits (len (transactions_of s userId)) page pageSize →
   GetPaginatedTransactions s userId startTime endTime page pageSize
   = Some {| Transactions := page_of inside page pageSize; TotalCount := len inside |}).
Proof.
  intros Hr Hok Hn inside. subst inside.
  pose proof (every_state_sorted s Hr userId) as Hs.
  split; [|by apply GetPaginatedTransactions_fits].
  intros r Hres. revert Hs Hn Hres. unfold transactions_of, ledger_of.
  destruct (s !! userId) as [l|] eqn:Hl; simpl.
  - intros Hs Hn Hres.
    destruct (GetPaginatedTransactions_inv _ _ _ _ _ _ _ _ Hl Hres) as [-> _].
    rewrite <- (range_count _ _ _ Hs Hok).
    pose proof (index_order _ _ _ Hs Hok).
    destruct (start_index_spec (transactions l) startTime Hs) as (? & _).
    destruct (end_index_spec (transactions l) endTime Hs) as (? & _).
    int_exact.
  - intros _ _. unfold GetPaginatedTransactions. rewrite Hl. by intros [= <-].
Qed.

Lemma range_filter_witness :
  let inside := filter (in_range (Some 2) (Some 3)) (transactions_of three_deposits "alice") in
  (∀ r, GetPaginatedTransactions three_deposits "alice" (Some 2) (Some 3) 1 10 = Some r →
        TotalCount r = len inside) ∧
  (page_fits (len (transactions_of three_deposits "alice")) 1 10 →
   GetPaginatedTransactions three_deposits "alice" (Some 2) (Some 3) 1 10
   = Some {| Transactions := page_of inside 1 10; TotalCount := len inside |}).
Proof.
  apply (range_filter three_deposits "alice" (Some 2) (Some 3) 1 10).
  - apply reachable_three_deposits.
  - simpl. lia.
  - by vm_compute.
Defined.

(** C5 at a page number whose offset overflows: [(page-1)*pageSize] is
    [2^64], which wraps to 0, so the call returns the first page, although
    [pageStart = lowIdx + (page-1)*pageSize] is not below [highIdx] and the
    page is to be empty. *)
Theorem pagination_wraps_to_first_page :
  reachable one_deposit ∧
  start_index (transactions_of one_deposit "alice") None = 0 ∧
  end_index (transactions_of one_deposit "alice") None = 1 ∧
  0 + (288230376151711745 - 1) * 64 >= 1 ∧
  GetPaginatedTransactions one_deposit "alice" None None 288230376151711745 64
  = Some {| Transactions := transactions_of one_deposit "alice"; TotalCount := 1 |} ∧
  transactions_of one_deposit "alice" ≠ [].
Proof.
  split; [apply reachable_one_deposit|]. by vm_compute.
Qed.

(** C10 at a page number whose offset overflows to a negative [int]: with
    [pageSize = 100] the product [(page-1)*pageSize] wraps below zero, the
    lower slice bound is negative, and the call panics. *)
Theorem pagination_panics_on_overflow :
  reachable one_deposit ∧
  0 <= 100 ∧ is_int 92233720368547760 ∧
  int_mul (int_sub 92233720368547760 1) 100 = -9223372036854775716 ∧
  GetPaginatedTransactions one_deposit "alice" None None 92233720368547760 100 = None.
Proof.
  split; [apply reachable_one_deposit|]. by vm_compute.
Qed.

(** A page number below one is read as one. *)
Lemma page_below_one s u st et page pageSize :
  page < 1 →
  GetPaginatedTransactions s u st et page pageSize
  = GetPaginatedTransactions s u st et 1 pageSize.
Proof.
  intros Hp. unfold GetPaginatedTransactions.
  destruct (s !! u); [|done].
  by destruct (Z.ltb_spec page 1); [|lia].
Qed.

(** Where the page arithmetic does not overflow, the call returns, and it
    returns at most [pageSize] records. *)
Lemma pagination_returns s u st et page pageSize :
  reachable s →
  page_fits (len (transactions_of s u)) (Z.max 1 page) pageSize →
  ∃ r, GetPaginatedTransactions s u st et page pageSize = Some r ∧
       len (Transactions r) <= pageSize.
Proof.
  intros Hr Hfit. pose proof (every_state_sorted s Hr u) as Hs.
  assert (GetPaginatedTransactions s u st et page pageSize
          = GetPaginatedTransactions s u st et (Z.max 1 page) pageSize) as ->.
  { destruct (Z_lt_dec page 1).
    - rewrite page_below_one by done. by rewrite Z.max_l by lia.
    - by rewrite Z.max_r by lia. }
  revert Hs Hfit. unfold transactions_of, ledger_of.
  destruct (s !! u) as [l|] eqn:Hl; simpl; intros Hs Hfit.
  - rewrite (GetPaginatedTransactions_indices _ _ _ _ _ _ _ Hl Hs Hfit).
    eexists. split; [done|]. simpl. unfold index_page.
    destruct Hfit as (_ & Hsz & _).
    destruct (_ >=? _); unfold len; simpl; [lia|]. rewrite length_take. lia.
  - unfold GetPaginatedTransactions. rewrite Hl. eexists. split; [done|].
    destruct Hfit as (_ & Hsz & _). simpl. unfold len. simpl. lia.
Qed.

Lemma next_page_start lo page pageSize :
  int_add lo (int_mul (int_sub (page + 1) 1) pageSize)
  = int_add (int_add lo (int_mul (int_sub page 1) pageSize)) pageSize.
Proof.
  unfold int_add, int_mul, int_sub.
  rewrite !wrap_mul_l, wrap_add_l, wrap_add_r.
  replace (lo + wrap ((page - 1) * pageSize) + pageSize)
    with (lo + pageSize + wrap ((page - 1) * pageSize)) by lia.
  rewrite wrap_add_r. f_equal. lia.
Qed.

Lemma sorted_window l a n :
  sorted_by_timestamp l → sorted_by_timestamp (take n (drop a l)).
Proof.
  intros Hs. eapply sorted_sublist; [|exact Hs].
  etrans; [apply sublist_take|apply sublist_drop].
Qed.

Lemma page_sorted s u st et page pageSize r :
  sorted_by_timestamp (transactions_of s u) →
  GetPaginatedTransactions s u st et page pageSize = Some r →
  sorted_by_timestamp (Transactions r).
Proof.
  unfold transactions_of, ledger_of.
  destruct (s !! u) as [l|] eqn:Hl; simpl; intros Hs Hres.
  - destruct (GetPaginatedTransactions_inv _ _ _ _ _ _ _ _ Hl Hres)
      as [_ [[_ ->]|(_ & b & _ & _ & _ & ->)]]; [constructor|].
    by apply sorted_window.
  - unfold GetPaginatedTransactions in Hres. rewrite Hl in Hres.
    injection Hres as <-. constructor.
Qed.

Lemma consecutive_pages_sorted s u st et page pageSize r1 r2 :
  sorted_by_timestamp (transactions_of s u) → 1 <= page →
  GetPaginatedTransactions s u st et page pageSize = Some r1 →
  GetPaginatedTransactions s u st et (page + 1) pageSize = Some r2 →
  sorted_by_timestamp (Transactions r1 ++ Transactions r2).
Proof.
  intros Hs Hp H1 H2.
  pose proof (page_sorted _ _ _ _ _ _ _ Hs H1) as Hs1.
  pose proof (page_sorted _ _ _ _ _ _ _ Hs H2) as Hs2.
  revert Hs H1 H2. unfold transactions_of, ledger_of.
  destruct (s !! u) as [l|] eqn:Hl; simpl; intros Hs H1 H2.
  2:{ unfold GetPaginatedTransactions in H1. rewrite Hl in H1.
      injection H1 as <-. done. }
  destruct (GetPaginatedTransactions_inv _ _ _ _ _ _ _ _ Hl H1) as [_ C1].
  destruct (GetPaginatedTransactions_inv _ _ _ _ _ _ _ _ Hl H2) as [_ C2].
  lazy zeta in C1, C2.
  destruct (Z.ltb_spec page 1); [lia|]. destruct (Z.ltb_spec (page + 1) 1); [lia|].
  rewrite next_page_start in C2.
  set (hi := end_index (transactions l) et) in *.
  set (a := int_add (start_index (transactions l) st) _) in *.
  set (e := int_add a pageSize) in *.
  destruct C1 as [[_ E1]|(Ha & b1 & Hb1 & Hab1 & Hbn1 & E1)].
  { by rewrite E1. }
  destruct C2 as [[_ E2]|(He & b2 & Hb2 & Hab2 & Hbn2 & E2)].
  { by rewrite E2, app_nil_r. }
  assert (b1 = e) as -> by (rewrite Hb1, Z.gtb_ltb; destruct (Z.ltb_spec hi e); lia).
  rewrite E1, E2.
  replace (Z.to_nat e) with (Z.to_nat a + Z.to_nat (e - a))%nat by lia.
  rewrite <- drop_drop, take_take_drop. by apply sorted_window.
Qed.

(** C8. In every reachable state the transaction sequence of every account
    is sorted non-decreasingly by timestamp; so, for every filter and page
    size, the records of a returned page are non-decreasing by timestamp,
    and so are the records of a page followed by those of the next page. *)
Theorem sort_invariant (s : LedgerStore) (userId : string) :
  reachable s →
  sorted_by_timestamp (transactions_of s userId) ∧
  (∀ startTime endTime page pageSize r,
     GetPaginatedTransactions s userId startTime endTime page pageSize = Some r →
     sorted_by_timestamp (Transactions r)) ∧
  (∀ startTime endTime page pageSize r1 r2,
     1 <= page →
     GetPaginatedTransactions s userId startTime endTime page pageSize = Some r1 →
     GetPaginatedTransactions s userId startTime endTime (page + 1) pageSize = Some r2 →
     sorted_by_timestamp (Transactions r1 ++ Transactions r2)).
Proof.
  intros Hr. pose proof (every_state_sorted s Hr userId) as Hs.
  split; [done|]. split.
  - intros. by eapply page_sorted.
  - intros. by eapply consecutive_pages_sorted.
Qed.

Lemma sort_invariant_witness :
  sorted_by_timestamp (transactions_of three_deposits "alice") ∧
  (∃ r1 r2,
     GetPaginatedTransactions three_deposits "alice" None None 1 2 = Some r1 ∧
     GetPaginatedTransactions three_deposits "alice" None None (1 + 1) 2 = Some r2 ∧
     length (Transactions r1) = 2%nat ∧ length (Transactions r2) = 1%nat ∧
     sorted_by_timestamp (Transactions r1 ++ Transactions r2)).
Proof.
  destruct (sort_invariant three_deposits "alice" reachable_three_deposits)
    as (Hs & _ & Hpages).
  split; [exact Hs|].
  eexists _, _. split; [reflexivity|]. split; [reflexivity|].
  split; [reflexivity|]. split; [reflexivity|].
  apply (Hpages None None 1 2); [lia|reflexivity|reflexivity].
Defined.

End PageClaims.

(** ** Seeding with a given timestamp *)

Section WithTimeClaims.

Lemma fold_balance_perm l l' : l ≡ₚ l' → (fold_balance l == fold_balance l')%Q.
Proof.
  unfold fold_balance. induction 1; simpl in *; lra.
Qed.

Lemma fold_balance_snoc l tx :
  (fold_balance (l ++ [tx]) == fold_balance l + signed_amount tx)%Q.
Proof.
  unfold fold_balance. induction l as [|x l IH]; simpl in *; lra.
Qed.

Lemma insert_last_sublist x l : l `sublist_of` insert_last x l.
Proof.
  induction l as [|y l IH]; simpl.
  - apply sublist_nil_l.
  - destruct (less_timestamp x y).
    + by apply sublist_cons.
    + by apply sublist_skip.
Qed.

Lemma applied_with_time_consistent l tx :
  ledger_consistent l → ledger_consistent (applied_with_time l tx).
Proof.
  unfold ledger_consistent, applied_with_time. simpl. intros Hl.
  rewrite (fold_balance_perm _ _ (SliceStable_perm less_timestamp _)).
  rewrite fold_balance_snoc. unfold signed_amount.
  destruct (String.eqb _ Deposit); [lra|].
  destruct (String.eqb _ Withdrawal); lra.
Qed.




End WithTimeClaims.

(** ** The tree store against the slice store *)

Section TwoStores.

Lemma Put_insert_last tx l :
  Timestamp tx ∉ (Timestamp <$> l) →
  Put (Timestamp tx) tx (entry <$> l) = entry <$> insert_last tx l.
Proof.
  induction l as [|y l IH]; [done|].
  rewrite fmap_cons, not_elem_of_cons. intros [Hne Hl].
  rewrite fmap_cons. cbn [Put insert_last]. unfold entry at 1. cbn [fst snd].
  unfold less_timestamp, Before.
  destruct (Z.ltb_spec (Timestamp tx) (Timestamp y)); [done|].
  destruct (Z.eqb_spec (Timestamp tx) (Timestamp y)); [done|].
  by rewrite fmap_cons, IH.
Qed.

(** The iterator loop collects the records in the range. *)
Lemma collect_filter l st et acc :
  sorted_by_timestamp l →
  collect st et (entry <$> l) acc = acc ++ filter (in_range st et) l.
Proof.
  unfold sorted_by_timestamp. intros Hs. revert acc.
  induction Hs as [|x l Hs IH Hx]; intros acc; simpl.
  - by rewrite app_nil_r.
  - destruct st as [st|], et as [et|]; unfold Before, After;
      rewrite ?Z.gtb_ltb;
      repeat match goal with
             | |- context [?a <? ?b] => destruct (Z.ltb_spec a b)
             end;
      try (rewrite filter_cons_False by (unfold in_range; lia); by apply IH);
      try (rewrite filter_cons_True by (unfold in_range; lia);
           rewrite IH, <- app_assoc; done).
    all: rewrite filter_none; [by rewrite app_nil_r|].
    all: constructor; [unfold in_range; lia|].
    all: eapply Forall_impl; [exact Hx|].
    all: unfold timestamp_le, in_range; intros; lia.
Qed.

Lemma GetPaginatedTransactionsV2_fits s2 u l2 txs st et page pageSize :
  s2 !! u = Some l2 → tree l2 = entry <$> txs → sorted_by_timestamp txs →
  page_fits (len txs) page pageSize →
  GetPaginatedTransactionsV2 s2 u st et page pageSize
  = Some {| Transactions := page_of (filter (in_range st et) txs) page pageSize;
            TotalCount := len (filter (in_range st et) txs) |}.
Proof.
  intros Hl Ht Hs Hfit. unfold GetPaginatedTransactionsV2. rewrite Hl, Ht.
  rewrite (collect_filter _ _ _ [] Hs). simpl.
  set (F := filter (in_range st et) txs).
  assert (0 <= len F <= len txs) as HF
    by (unfold len, F; pose proof (length_filter (in_range st et) txs); lia).
  assert (len txs <= max_int) as Hn by (destruct Hfit as (? & ? & ?); nia).
  destruct (int_ops_fit (len txs) 0 page pageSize ltac:(lia) Hn Hfit) as (E1 & E2 & _ & _ & Hk).
  destruct Hfit as (Hp & Hsz & Hb).
  destruct (Z.ltb_spec page 1); [lia|]. rewrite E1, E2.
  unfold page_of. set (k := (page - 1) * pageSize) in *.
  assert (int_add k pageSize = k + pageSize) as -> by (unfold k; int_exact).
  unfold len in *.
  destruct (Z.geb_spec k (Z.of_nat (length F))) as [Hge|Hlt].
  - do 2 f_equal. rewrite drop_ge; [by rewrite take_nil|lia].
  - rewrite Z.gtb_ltb.
    destruct (Z.ltb_spec (Z.of_nat (length F)) (k + pageSize)) as [Hclamp|Hclamp].
    + rewrite slice_Some by (unfold len; lia). simpl. do 2 f_equal.
      rewrite !take_ge; [done|rewrite length_drop; lia..].
    + rewrite slice_Some by (unfold len; lia). simpl. do 3 f_equal. lia.
Qed.

(** The records of an account after a call: the old ones, and the new one
    when the call is accepted. *)
Lemma do_call_records s c u r :
  r ∈ transactions_of (do_call s c).1 u →
  r ∈ transactions_of s u ∨ Timestamp r = call_now c.
Proof.
  unfold transactions_of, do_call.
  destruct (decide (call_user c = u)) as [<-|Hne].
  - rewrite AddTransaction_same. destruct (insufficient s _ _ _); [by left|].
    simpl. rewrite (SliceStable_perm less_timestamp _), elem_of_app, list_elem_of_singleton.
    intros [?| ->]; [by left|by right].
  - rewrite AddTransaction_other by done. by left.
Qed.

Lemma ledger_equiv_empty : ledger_equiv empty_ledger empty_ledgerV2.
Proof. done. Qed.

(** One call keeps the two stores in step when the timestamp of the call
    is new to the account. *)
Lemma do_call_equiv s1 s2 c :
  store_equiv s1 s2 →
  sorted_by_timestamp (transactions_of s1 (call_user c)) →
  call_now c ∉ (Timestamp <$> transactions_of s1 (call_user c)) →
  (do_callV2 s2 c).2 = (do_call s1 c).2 ∧
  store_equiv (do_call s1 c).1 (do_callV2 s2 c).1.
Proof.
  intros Heq Hs Hfresh. pose proof (Heq (call_user c)) as Hu.
  unfold transactions_of, ledger_of in Hs, Hfresh.
  unfold do_call, do_callV2, AddTransaction, AddTransactionV2,
    lookup_or_create, lookup_or_createV2.
  destruct c as [u ty amt d id now]. simpl in *.
  assert (∀ l1 l2 (t1 : LedgerStore) (t2 : LedgerStoreV2),
            ledger_equiv l1 l2 → sorted_by_timestamp (transactions l1) →
            now ∉ (Timestamp <$> transactions l1) →
            (∀ u', u ≠ u' → option_Forall2 ledger_equiv (t1 !! u') (t2 !! u')) →
            store_equiv
              (<[u := {| transactions :=
                           SliceStable less_timestamp
                             (transactions l1 ++ [NewTransactionRecord ty amt d id now]);
                         balance := if String.eqb ty Deposit then (balance l1 + amt)%Q
                                    else (balance l1 - amt)%Q |}]> t1)
              (<[u := {| tree := Put now (NewTransactionRecord ty amt d id now) (tree l2);
                         balanceV2 := if String.eqb ty Deposit then (balanceV2 l2 + amt)%Q
                                      else (balanceV2 l2 - amt)%Q |}]> t2)) as Hstep.
  { intros l1 l2 t1 t2 [Ht Hb] Hs1 Hf1 Hrest u'.
    destruct (decide (u = u')) as [<-|Hne].
    - rewrite !lookup_insert_eq. constructor. split; simpl.
      + rewrite Ht, SliceStable_snoc by done.
        by apply (Put_insert_last (NewTransactionRecord ty amt d id now)).
      + by rewrite Hb.
    - rewrite !lookup_insert_ne by done. by apply Hrest. }
  destruct (s1 !! u) as [l1|] eqn:H1, (s2 !! u) as [l2|] eqn:H2;
    inversion Hu as [? ? Hl|]; subst.
  - destruct Hl as [Ht Hb]. rewrite Hb.
    destruct (String.eqb ty Withdrawal && Qltb (balance l1) amt); simpl; [done|].
    split; [done|].
    pose proof (Hstep l1 l2 s1 s2 (conj Ht Hb) Hs Hfresh (λ u' _, Heq u')) as H.
    by rewrite Hb in H.
  - simpl.
    destruct (String.eqb ty Withdrawal && Qltb 0 amt); simpl.
    + split; [done|]. intros u'. destruct (decide (u = u')) as [<-|Hne].
      * rewrite !lookup_insert_eq. constructor. apply ledger_equiv_empty.
      * rewrite !lookup_insert_ne by done. apply Heq.
    + split; [done|].
      apply (Hstep empty_ledger empty_ledgerV2); [done..|].
      intros u' Hne. rewrite !lookup_insert_ne by done. apply Heq.
Qed.

Lemma run_calls_equiv calls s1 s2 :
  reachable s1 → store_equiv s1 s2 →
  NoDup (call_now <$> calls) →
  (∀ u r, r ∈ transactions_of s1 u → Timestamp r ∉ (call_now <$> calls)) →
  resultsV2 s2 calls = results s1 calls ∧
  store_equiv (run_calls s1 calls) (run_callsV2 s2 calls).
Proof.
  revert s1 s2. induction calls as [|c calls IH]; intros s1 s2 Hr Heq Hnd Hfresh; [done|].
  rewrite fmap_cons in Hnd. apply NoDup_cons in Hnd as [Hc Hnd].
  destruct (do_call_equiv s1 s2 c Heq) as [Hres Heq'].
  { by apply every_state_sorted. }
  { intros (r & Hts & Hin)%list_elem_of_fmap.
    apply (Hfresh _ _ Hin). rewrite fmap_cons, <- Hts. by left. }
  destruct (IH (do_call s1 c).1 (do_callV2 s2 c).1) as [Hress Heqs]; [|done..| |].
  - unfold do_call. by apply reachable_add.
  - intros u r [Hold|Hnew]%do_call_records.
    + intros Hin. apply (Hfresh _ _ Hold). rewrite fmap_cons. by right.
    + by rewrite Hnew.
  - simpl. by rewrite Hres, Hress.
Qed.

Lemma store_equiv_empty : store_equiv NewLedgerStore ∅.
Proof. intros u. unfold NewLedgerStore. rewrite !lookup_empty. constructor. Qed.

(** C9, as stated, fails: with a start after the end the slice store
    reports a total count of -1 and the tree store a total count of 0, for
    the same three deposits at distinct instants. *)
Lemma stores_agree_counterexample :
  NoDup (call_now <$> three_calls) ∧ 1 <= 1 ∧ 1 <= 10 ∧
  GetPaginatedTransactions three_deposits "alice" (Some 3) (Some 1) 1 10
  = Some {| Transactions := []; TotalCount := -1 |} ∧
  GetPaginatedTransactionsV2 three_depositsV2 "alice" (Some 3) (Some 1) 1 10
  = Some {| Transactions := []; TotalCount := 0 |}.
Proof.
  split; [apply (bool_decide_unpack _); by vm_compute|]. by vm_compute.
Qed.

(** C9, amended. For every sequence of calls whose timestamps are pairwise
    distinct, run on a fresh store of each kind: the two stores return the
    same record and the same error for every call, the same balance for
    every account, and, for a start that is not after the end when both are
    given and for a page and page size that do not overflow, the same
    records in the same order and the same total count. *)
Theorem stores_agree (calls : list AddCall) :
  NoDup (call_now <$> calls) →
  let s1 := run_calls NewLedgerStore calls in
  let s2 := run_callsV2 ∅ calls in
  resultsV2 ∅ calls = results NewLedgerStore calls ∧
  ∀ userId,
    GetBalanceV2 s2 userId = GetBalance s1 userId ∧
    ∀ startTime endTime page pageSize,
      range_ok startTime endTime →
      page_fits (len (transactions_of s1 userId)) page pageSize →
      GetPaginatedTransactionsV2 s2 userId startTime endTime page pageSize
      = GetPaginatedTransactions s1 userId startTime endTime page pageSize.
Proof.
  intros Hnd s1 s2.
  destruct (run_calls_equiv calls NewLedgerStore ∅ reachable_new store_equiv_empty Hnd)
    as [Hres Heq].
  { intros u r. unfold transactions_of, ledger_of, NewLedgerStore.
    rewrite lookup_empty. simpl. by intros ?%elem_of_nil. }
  split; [done|]. intros u. fold s1 s2 in Heq.
  assert (sorted_by_timestamp (transactions_of s1 u)) as Hs
    by (apply every_state_sorted, reachable_run_calls, reachable_new).
  pose proof (Heq u) as Hu. split.
  - unfold GetBalanceV2, GetBalance.
    destruct Hu as [l1 l2 [_ Hb]|]; [by rewrite Hb|done].
  - intros st et page pageSize Hok Hfit.
    rewrite (GetPaginatedTransactions_fits s1 u st et page pageSize Hs Hok Hfit).
    revert Hs Hfit. unfold transactions_of, ledger_of.
    inversion Hu as [l1 l2 [Ht Hb] H1 H2|H1 H2]; simpl; intros Hs Hfit.
    + by apply (GetPaginatedTransactionsV2_fits s2 u l2 (transactions l1)).
    + unfold GetPaginatedTransactionsV2. rewrite <- H2. unfold page_of.
      by rewrite filter_nil, drop_nil, take_nil.
Qed.

Lemma stores_agree_witness :
  resultsV2 ∅ three_calls = results NewLedgerStore three_calls ∧
  GetBalanceV2 three_depositsV2 "alice" = GetBalance three_deposits "alice" ∧
  GetPaginatedTransactionsV2 three_depositsV2 "alice" (Some 2) None 1 2
  = GetPaginatedTransactions three_deposits "alice" (Some 2) None 1 2.
Proof.
  destruct (stores_agree three_calls) as [Hres Hq].
  { apply (bool_decide_unpack _). by vm_compute. }
  split; [exact Hres|]. destruct (Hq "alice") as [Hb Hp].
  split; [exact Hb|]. apply Hp; [done|]. by vm_compute.
Defined.

End TwoStores.

(** ** Further properties of the sorted-slice store *)

Section StoreProperties.

Lemma lookup_or_create_lookup_ne s u u' :
  u ≠ u' → (lookup_or_create s u).2 !! u' = s !! u'.
Proof.
  intros Hne. unfold lookup_or_create. destruct (s !! u); simpl; [done|].
  by rewrite lookup_insert_ne.
Qed.

Lemma AddTransaction_lookup_ne s u ty amt d id now u' :
  u ≠ u' → (AddTransaction s u ty amt d id now).1 !! u' = s !! u'.
Proof.
  intros Hne. destruct (insufficient s u ty amt) eqn:Hi.
  - rewrite AddTransaction_rejected by done. by apply lookup_or_create_lookup_ne.
  - rewrite AddTransaction_accepted by done. simpl.
    rewrite lookup_insert_ne by done. by apply lookup_or_create_lookup_ne.
Qed.

Lemma AddTransactionWithTime_lookup_ne s u tx u' :
  u ≠ u' → AddTransactionWithTime s u tx !! u' = s !! u'.
Proof.
  intros Hne. rewrite AddTransactionWithTime_eq, lookup_insert_ne by done.
  by apply lookup_or_create_lookup_ne.
Qed.

Lemma queries_of_lookup (s s' : LedgerStore) u :
  s' !! u = s !! u →
  GetBalance s' u = GetBalance s u ∧
  ∀ st et page pageSize,
    GetPaginatedTransactions s' u st et page pageSize
    = GetPaginatedTransactions s u st et page pageSize.
Proof.
  intros H. unfold GetBalance, GetPaginatedTransactions. by rewrite H.
Qed.

(** X1. Isolation: a mutation of one account, accepted or rejected, leaves
    the answers of both queries for every other account as they were. *)
Theorem isolation (s : LedgerStore) (userId other : string) :
  userId ≠ other →
  (∀ txType amount description id now,
     let s' := (AddTransaction s userId txType amount description id now).1 in
     GetBalance s' other = GetBalance s other ∧
     ∀ st et page pageSize,
       GetPaginatedTransactions s' other st et page pageSize
       = GetPaginatedTransactions s other st et page pageSize) ∧
  (∀ tx,
     let s' := AddTransactionWithTime s userId tx in
     GetBalance s' other = GetBalance s other ∧
     ∀ st et page pageSize,
       GetPaginatedTransactions s' other st et page pageSize
       = GetPaginatedTransactions s other st et page pageSize).
Proof.
  intros Hne. split; intros; apply queries_of_lookup.
  - by apply AddTransaction_lookup_ne.
  - by apply AddTransactionWithTime_lookup_ne.
Qed.

Lemma isolation_witness :
  GetBalance (AddTransaction one_deposit "bob" Deposit 5 "gift" 2%N 20).1 "alice"
  = GetBalance one_deposit "alice".
Proof.
  destruct (isolation one_deposit "bob" "alice" ltac:(done)) as [Hadd _].
  apply (Hadd Deposit 5%Q "gift"%string 2%N 20).
Defined.

Lemma reachable_do_op s op : reachable s → reachable (do_op s op).
Proof.
  intros Hs. destruct op as [c|u tx]; simpl.
  - unfold do_call. by apply reachable_add.
  - by apply reachable_add_with_time.
Qed.

Lemma reachable_run_ops s ops : reachable s → reachable (run_ops s ops).
Proof.
  revert s. induction ops as [|op ops IH]; intros s Hs; [done|].
  simpl. by apply IH, reachable_do_op.
Qed.

Lemma do_op_sublist s op u :
  sorted_by_timestamp (transactions_of s u) →
  transactions_of s u `sublist_of` transactions_of (do_op s op) u.
Proof.
  unfold transactions_of. intros Hs. destruct op as [c|u' tx]; simpl.
  - unfold do_call. destruct (decide (call_user c = u)) as [<-|Hne].
    + rewrite AddTransaction_same. destruct (insufficient s _ _ _); [done|].
      simpl. rewrite SliceStable_snoc by done. apply insert_last_sublist.
    + by rewrite AddTransaction_other.
  - destruct (decide (u' = u)) as [<-|Hne].
    + rewrite AddTransactionWithTime_same. simpl.
      rewrite SliceStable_snoc by done. apply insert_last_sublist.
    + by rewrite AddTransactionWithTime_other.
Qed.

(** X2. The history is append-only: after any further sequence of
    mutations of a reachable store, every account's earlier sequence is a
    subsequence of its later one: no record is dropped, changed or
    reordered. *)
Theorem history_append_only (s : LedgerStore) (ops : list Op) (userId : string) :
  reachable s →
  transactions_of s userId `sublist_of` transactions_of (run_ops s ops) userId.
Proof.
  revert s. induction ops as [|op ops IH]; intros s Hs; [done|].
  simpl. etrans; [|apply IH; by apply reachable_do_op].
  apply do_op_sublist. by apply every_state_sorted.
Qed.

Lemma history_append_only_witness :
  transactions_of one_deposit "alice"
  `sublist_of` transactions_of (run_ops one_deposit ops_example) "alice".
Proof.
  apply (history_append_only one_deposit ops_example "alice").
  apply reachable_one_deposit.
Defined.

Lemma insert_last_split x l :
  sorted_by_timestamp l →
  insert_last x l
  = filter (λ r, Timestamp r <= Timestamp x) l
    ++ x :: filter (λ r, Timestamp x < Timestamp r) l.
Proof.
  unfold sorted_by_timestamp. induction 1 as [|y l Hs IH Hy]; [done|].
  cbn [insert_last]. unfold less_timestamp, Before.
  destruct (Z.ltb_spec (Timestamp x) (Timestamp y)) as [Hlt|Hle].
  - rewrite (filter_none (λ r, Timestamp r <= Timestamp x)).
    + simpl. f_equal. symmetry. apply filter_all.
      constructor; [done|]. eapply Forall_impl; [exact Hy|].
      unfold timestamp_le. intros; lia.
    + constructor; [lia|]. eapply Forall_impl; [exact Hy|].
      unfold timestamp_le. intros; lia.
  - rewrite filter_cons_True by done. rewrite filter_cons_False by lia.
    rewrite IH. done.
Qed.

(** X3. Placement of a new record: in a reachable state, a record that is
    recorded (by [AddTransactionWithTime], or by an accepted
    [AddTransaction]) stands behind every record of the account with the
    same or an earlier timestamp and before every record with a later one;
    among equal timestamps the order is the order of insertion. *)
Theorem new_record_placement (s : LedgerStore) (userId : string) :
  reachable s →
  let old := transactions_of s userId in
  (∀ tx,
     transactions_of (AddTransactionWithTime s userId tx) userId
     = filter (λ x, Timestamp x <= Timestamp tx) old
       ++ tx :: filter (λ x, Timestamp tx < Timestamp x) old) ∧
  (∀ txType amount description id now,
     let r := AddTransaction s userId txType amount description id now in
     r.2.2 = None →
     transactions_of r.1 userId
     = filter (λ x, Timestamp x <= now) old
       ++ r.2.1 :: filter (λ x, now < Timestamp x) old).
Proof.
  intros Hr old. pose proof (every_state_sorted s Hr userId) as Hs.
  subst old. unfold transactions_of in *. split.
  - intros tx. rewrite AddTransactionWithTime_same. simpl.
    rewrite SliceStable_snoc by done. by apply insert_last_split.
  - intros ty amt d id now. lazy zeta. intros Herr.
    rewrite AddTransaction_error in Herr. rewrite AddTransaction_same.
    destruct (insufficient s userId ty amt) eqn:Hi; [done|].
    rewrite AddTransaction_accepted by done. simpl.
    rewrite SliceStable_snoc by done.
    by rewrite (insert_last_split _ _ Hs).
Qed.

Lemma new_record_placement_witness :
  let tx := {| ID := 9%N; Amount := 1; TxType := Deposit; Timestamp := 2;
               Description := "tie" |} in
  Timestamp <$> transactions_of (AddTransactionWithTime three_deposits "alice" tx) "alice"
  = [1; 2; 2; 3] ∧
  ID <$> transactions_of (AddTransactionWithTime three_deposits "alice" tx) "alice"
  = [1%N; 2%N; 9%N; 3%N].
Proof.
  intros tx.
  destruct (new_record_placement three_deposits "alice" reachable_three_deposits)
    as [Hp _].
  rewrite (Hp tx). split; reflexivity.
Defined.

Lemma applied_consistent l tx :
  valid_type (TxType tx) → ledger_consistent l → ledger_consistent (applied l tx).
Proof.
  unfold ledger_consistent, applied. simpl. intros Hv Hl.
  rewrite (fold_balance_perm _ _ (SliceStable_perm less_timestamp _)).
  rewrite fold_balance_snoc. unfold signed_amount.
  destruct Hv as [-> | ->]; simpl; lra.
Qed.

Lemma reachable_valid_consistent s u :
  reachable_valid s → ledger_consistent (ledger_of s u).
Proof.
  induction 1 as [|s u' ty amt d id now Hs IH Hv|s u' tx Hs IH].
  - unfold ledger_of, NewLedgerStore. rewrite lookup_empty.
    unfold ledger_consistent. simpl. reflexivity.
  - destruct (decide (u' = u)) as [<-|Hne]; [|by rewrite AddTransaction_other].
    rewrite AddTransaction_same. destruct (insufficient s u' ty amt); [done|].
    by apply applied_consistent.
  - destruct (decide (u' = u)) as [<-|Hne];
      [|by rewrite AddTransactionWithTime_other].
    rewrite AddTransactionWithTime_same. by apply applied_with_time_consistent.
Qed.

Lemma reachable_valid_run ops s :
  valid_ops ops → reachable_valid s → reachable_valid (run_ops s ops).
Proof.
  intros Hv. revert s. induction Hv as [|op ops Hop _ IH]; intros s Hs; [done|].
  simpl. apply IH. destruct op as [c|u tx]; simpl.
  - unfold do_call. by apply reachable_valid_add.
  - by apply reachable_valid_add_with_time.
Qed.

(** X4. The balance is the fold over the sequence: after any sequence of
    [AddTransaction] calls with a kind of the enumeration and of
    [AddTransactionWithTime] calls on a fresh store, with amounts on the
    account on which the arithmetic of [float64] is exact (whole numbers
    whose magnitudes add up to at most [2^53]), the account's balance is
    the sum of its deposits minus the sum of its withdrawals, taken over
    the records of its sequence, and is a whole number of magnitude at most
    [2^53]. *)
Theorem balance_is_fold (ops : list Op) (userId : string) :
  valid_ops ops → exact_ops userId ops →
  ledger_consistent (ledger_of (run_ops NewLedgerStore ops) userId) ∧
  ∃ n, ((GetBalance (run_ops NewLedgerStore ops) userId).1 == inject_Z n)%Q ∧
       Z.abs n <= exact_bound.
Proof.
  intros Hv Hexact. split.
  - apply reachable_valid_consistent, reachable_valid_run; [done|constructor].
  - rewrite GetBalance_balance_of. simpl. by apply whole_balance_fresh.
Qed.

Lemma balance_is_fold_witness :
  ledger_consistent (ledger_of (run_ops NewLedgerStore ops_example) "alice").
Proof.
  apply (balance_is_fold ops_example "alice").
  - unfold ops_example. repeat constructor; by (left + right).
  - split; [|by vm_compute]. unfold ops_example. by repeat constructor.
Defined.




(** X6. The two binary searches count: on a reachable sequence, the start
    index is the number of records before [startTime] and the end index the
    number of records not after [endTime]. *)
Theorem search_indices_count (s : LedgerStore) (userId : string) (st et : Time) :
  reachable s →
  let l := transactions_of s userId in
  start_index l (Some st) = len (filter (λ r, Timestamp r < st) l) ∧
  end_index l (Some et) = len (filter (λ r, Timestamp r <= et) l).
Proof.
  intros Hr l. pose proof (every_state_sorted s Hr userId) as Hs. fold l in Hs.
  destruct (start_index_spec l (Some st) Hs) as (Hr1 & Hlo1 & Hhi1).
  destruct (end_index_spec l (Some et) Hs) as (Hr2 & Hlo2 & Hhi2).
  destruct (split_at_boundary (from_start (Some st)) l _ Hlo1 Hhi1) as [E1 _].
  destruct (split_at_boundary (past_end (Some et)) l _ Hlo2 Hhi2) as [E2 _].
  split.
  - rewrite (list_filter_iff _ (λ r, ¬ from_start (Some st) r))
      by (intros r; simpl; lia).
    rewrite <- E1. unfold len in *. rewrite length_take. lia.
  - rewrite (list_filter_iff _ (λ r, ¬ past_end (Some et) r))
      by (intros r; simpl; lia).
    rewrite <- E2. unfold len in *. rewrite length_take. lia.
Qed.

Lemma search_indices_count_witness :
  let l := transactions_of three_deposits "alice" in
  start_index l (Some 2) = len (filter (λ r, Timestamp r < 2) l) ∧
  end_index l (Some 2) = len (filter (λ r, Timestamp r <= 2) l).
Proof.
  apply (search_indices_count three_deposits "alice" 2 2), reachable_three_deposits.
Defined.

Lemma pages_from_fits s u st et pageSize page k :
  sorted_by_timestamp (transactions_of s u) → range_ok st et →
  1 <= page → 1 <= pageSize →
  len (transactions_of s u) + (page - 1 + Z.of_nat k) * pageSize <= max_int →
  pages_from s u st et pageSize page k
  = Some (take (Z.to_nat (Z.of_nat k * pageSize))
            (drop (Z.to_nat ((page - 1) * pageSize))
               (filter (in_range st et) (transactions_of s u)))).
Proof.
  intros Hs Hok. revert page. induction k as [|k IH]; intros page Hp Hsz Hb.
  - by rewrite take_0.
  - cbn [pages_from].
    pose proof (len_nonneg (transactions_of s u)).
    rewrite (GetPaginatedTransactions_fits s u st et page pageSize Hs Hok)
      by (unfold page_fits; nia).
    simpl. rewrite IH by nia. simpl. f_equal. unfold page_of.
    replace (Z.to_nat ((page + 1 - 1) * pageSize))
      with (Z.to_nat ((page - 1) * pageSize) + Z.to_nat pageSize)%nat by nia.
    rewrite <- drop_drop, take_take_drop. f_equal. nia.
Qed.

(** X7. Pagination is complete: in a reachable state, for a start not after
    the end and a page size of at least one, the pages 1 to [k], one after
    the other, are exactly the records in the range, each once and in
    order, as soon as [k] pages cover them; this for page arithmetic that
    does not overflow. *)
Theorem pagination_complete (s : LedgerStore) (userId : string)
    (startTime endTime : option Time) (pageSize : Z) (k : nat) :
  reachable s → range_ok startTime endTime → 1 <= pageSize →
  let inside := filter (in_range startTime endTime) (transactions_of s userId) in
  len inside <= Z.of_nat k * pageSize →
  len (transactions_of s userId) + Z.of_nat k * pageSize <= max_int →
  pages_from s userId startTime endTime pageSize 1 k = Some inside.
Proof.
  intros Hr Hok Hsz inside Hcover Hfit.
  rewrite pages_from_fits; [|by apply every_state_sorted|done|lia|done|lia].
  simpl. rewrite drop_0. f_equal. apply take_ge. unfold len in Hcover. fold inside. lia.
Qed.

Lemma pagination_complete_witness :
  pages_from three_deposits "alice" None None 2 1 2
  = Some (transactions_of three_deposits "alice").
Proof.
  apply (pagination_complete three_deposits "alice" None None 2 2).
  - apply reachable_three_deposits.
  - done.
  - lia.
  - by vm_compute.
  - by vm_compute.
Defined.

Lemma history_of_run s calls u :
  transactions_of (run_calls s calls) u
  ≡ₚ transactions_of s u
     ++ (record_of <$> filter (λ c, call_user c = u) (succeeded s calls)).
Proof.
  revert s. induction calls as [|c calls IH]; intros s.
  - simpl. by rewrite app_nil_r.
  - cbn [run_calls]. rewrite IH, succeeded_cons. unfold transactions_of, do_call at 1.
    destruct (decide (call_user c = u)) as [<-|Hne].
    + rewrite AddTransaction_same.
      destruct (insufficient s _ _ _); [done|].
      rewrite filter_cons_True by done. rewrite fmap_cons. simpl.
      rewrite (SliceStable_perm less_timestamp _), <- app_assoc. done.
    + rewrite AddTransaction_other by done.
      destruct (insufficient s _ _ _); [done|].
      by rewrite filter_cons_False.
Qed.

(** X8. The history holds the accepted calls: after any sequence of
    [AddTransaction] calls on a fresh store, the sequence of an account
    consists of exactly the records of the calls on that account that
    succeeded, one record for each. *)
Theorem history_is_accepted_calls (calls : list AddCall) (userId : string) :
  transactions_of (run_calls NewLedgerStore calls) userId
  ≡ₚ record_of <$> filter (λ c, call_user c = userId) (succeeded NewLedgerStore calls).
Proof.
  rewrite history_of_run. unfold transactions_of, ledger_of, NewLedgerStore.
  by rewrite lookup_empty.
Qed.

Lemma wrap_above x : max_int < x → x <= max_int + int_modulus → wrap x = x - int_modulus.
Proof.
  unfold wrap, max_int, int_modulus, int_bits. intros H1 H2.
  replace (x + 2 ^ (64 - 1)) with (x + 2 ^ (64 - 1) - 2 ^ 64 + 1 * 2 ^ 64) by lia.
  rewrite Z_mod_plus_full, Z.mod_small; lia.
Qed.

Lemma returned_page_bound (s : LedgerStore) (userId : string)
    (startTime endTime : option Time) (page pageSize : Z) (r : PaginatedTransactions) :
  is_int pageSize → len (transactions_of s userId) <= max_int →
  GetPaginatedTransactions s userId startTime endTime page pageSize = Some r →
  len (Transactions r) <= Z.max 0 pageSize.
Proof.
  unfold transactions_of, ledger_of. intros Hps.
  destruct (s !! userId) as [l|] eqn:Hl; simpl; intros Hn Hres.
  2:{ unfold GetPaginatedTransactions in Hres. rewrite Hl in Hres.
      injection Hres as <-. unfold len. simpl. lia. }
  destruct (GetPaginatedTransactions_inv _ _ _ _ _ _ _ _ Hl Hres) as [_ C].
  lazy zeta in C.
  set (hi := end_index (transactions l) endTime) in *.
  set (a := int_add _ _) in *.
  destruct C as [[_ ->]|(Ha & b & Hb & Hab & Hbn & ->)].
  { unfold len. simpl. lia. }
  unfold len in *. rewrite length_take, length_drop.
  assert (b - a <= Z.max 0 pageSize); [|lia].
  unfold is_int in Hps. pose proof min_int_max_int as Hmm.
  assert (int_modulus = 2 * max_int + 2) as Hmod by done.
  unfold int_add in Hb at 1 2. fold a in Hb.
  destruct (Z_le_gt_dec (a + pageSize) max_int) as [Hfit|Hover].
  - rewrite wrap_small in Hb by (unfold is_int; lia).
    rewrite Z.gtb_ltb in Hb. destruct (Z.ltb_spec hi (a + pageSize)); lia.
  - rewrite wrap_above in Hb by lia.
    rewrite Z.gtb_ltb in Hb. destruct (Z.ltb_spec hi (a + pageSize - int_modulus)); lia.
Qed.

(** X9. Whenever [GetPaginatedTransactions] returns, the page holds at
    most [pageSize] records (none for a negative [pageSize]), and they are
    records of the account in the order of its sequence; this for every
    page number, overflow included. *)
Theorem page_at_most_page_size (s : LedgerStore) (userId : string)
    (startTime endTime : option Time) (page pageSize : Z) (r : PaginatedTransactions) :
  is_int pageSize → len (transactions_of s userId) <= max_int →
  GetPaginatedTransactions s userId startTime endTime page pageSize = Some r →
  len (Transactions r) <= Z.max 0 pageSize ∧
  Transactions r `sublist_of` transactions_of s userId.
Proof.
  intros Hps Hn Hres. split; [by eapply returned_page_bound|].
  revert Hres. unfold transactions_of, ledger_of.
  destruct (s !! userId) as [l|] eqn:Hl; simpl; intros Hres.
  - destruct (GetPaginatedTransactions_inv _ _ _ _ _ _ _ _ Hl Hres)
      as [_ [[_ ->]|(_ & b & _ & _ & _ & ->)]]; [apply sublist_nil_l|].
    etrans; [apply sublist_take|apply sublist_drop].
  - unfold GetPaginatedTransactions in Hres. rewrite Hl in Hres.
    by injection Hres as <-.
Qed.

Lemma page_at_most_page_size_witness :
  ∃ r, GetPaginatedTransactions three_deposits "alice" None None 2 2 = Some r ∧
       len (Transactions r) <= Z.max 0 2 ∧
       Transactions r `sublist_of` transactions_of three_deposits "alice".
Proof.
  eexists. split; [reflexivity|].
  apply (page_at_most_page_size three_deposits "alice" None None 2 2);
    [by vm_compute|by vm_compute|reflexivity].
Defined.

Lemma total_count_in_range s u st et page pageSize r :
  sorted_by_timestamp (transactions_of s u) → range_ok st et →
  len (transactions_of s u) <= max_int →
  GetPaginatedTransactions s u st et page pageSize = Some r →
  TotalCount r = len (filter (in_range st et) (transactions_of s u)).
Proof.
  unfold transactions_of, ledger_of.
  destruct (s !! u) as [l|] eqn:Hl; simpl; intros Hs Hok Hn Hres.
  - destruct (GetPaginatedTransactions_inv _ _ _ _ _ _ _ _ Hl Hres) as [-> _].
    rewrite <- (range_count _ _ _ Hs Hok).
    pose proof (index_order _ _ _ Hs Hok).
    destruct (start_index_spec (transactions l) st Hs) as (? & _).
    destruct (end_index_spec (transactions l) et Hs) as (? & _).
    int_exact.
  - unfold GetPaginatedTransactions in Hres. rewrite Hl in Hres. by injection Hres as <-.
Qed.

End StoreProperties.

(** ** Further properties of the tree store *)

Section TreeStoreProperties.

Lemma Put_elem k v t e : e ∈ Put k v t → e = (k, v) ∨ e ∈ t.
Proof.
  induction t as [|[k' v'] t IH]; simpl.
  - rewrite list_elem_of_singleton. by left.
  - destruct (k <? k'); [|destruct (k =? k')]; rewrite !elem_of_cons;
      intuition auto.
Qed.


Lemma Put_wf k v t : k = Timestamp v → tree_wf t → tree_wf (Put k v t).
Proof.
  intros Hk [Hs Hf]. split.
  - induction Hs as [|[k' v'] t Hs IH Hx]; simpl.
    + repeat constructor.
    + apply Forall_cons in Hf as [_ Hf]. specialize (IH Hf).
      destruct (Z.ltb_spec k k').
      * constructor; [by constructor|]. constructor; [done|].
        eapply Forall_impl; [exact Hx|]. simpl. intros; lia.
      * destruct (Z.eqb_spec k k') as [->|Hne].
        -- by constructor.
        -- constructor; [done|]. rewrite Forall_forall. intros e He.
           apply Put_elem in He as [->|He]; [simpl; lia|].
           rewrite Forall_forall in Hx. by apply Hx.
  - rewrite Forall_forall in Hf |- *. intros e He.
    apply Put_elem in He as [->|He]; [done|by apply Hf].
Qed.



(** What one call does to the trees and balances of the tree store. *)
Lemma AddTransactionV2_cases s u ty amt d id now :
  let r := AddTransactionV2 s u ty amt d id now in
  let tx := NewTransactionRecord ty amt d id now in
  (∀ u', u ≠ u' →
     tree_of r.1 u' = tree_of s u' ∧ GetBalanceV2 r.1 u' = GetBalanceV2 s u') ∧
  if String.eqb ty Withdrawal && Qltb (GetBalanceV2 s u).1 amt then
    r.2 = (zero_record, Some "insufficient funds"%string) ∧
    tree_of r.1 u = tree_of s u ∧ GetBalanceV2 r.1 u = GetBalanceV2 s u
  else
    r.2 = (tx, None) ∧
    tree_of r.1 u = Put now tx (tree_of s u) ∧
    GetBalanceV2 r.1 u
    = (if String.eqb ty Deposit then ((GetBalanceV2 s u).1 + amt)%Q
       else ((GetBalanceV2 s u).1 - amt)%Q, None).
Proof.
  intros r tx. subst r tx.
  unfold AddTransactionV2, lookup_or_createV2, tree_of, GetBalanceV2.
  destruct (s !! u) as [l|] eqn:Hl; simpl.
  - destruct (String.eqb ty Withdrawal && Qltb (balanceV2 l) amt); simpl.
    + split; [done|]. by rewrite Hl.
    + split; [intros u' Hne; by rewrite lookup_insert_ne|].
      by rewrite lookup_insert_eq.
  - destruct (String.eqb ty Withdrawal && Qltb 0 amt); simpl.
    + split; [intros u' Hne; by rewrite lookup_insert_ne|].
      by rewrite lookup_insert_eq.
    + split; [intros u' Hne; by rewrite !lookup_insert_ne|].
      by rewrite lookup_insert_eq.
Qed.

(** X10. The tree of every account of a reachable tree store has strictly
    increasing keys, each the timestamp of its record: the store holds at
    most one record for a timestamp. *)
Theorem tree_invariant (s : LedgerStoreV2) (userId : string) :
  reachableV2 s → tree_wf (tree_of s userId).
Proof.
  induction 1 as [|s u ty amt d id now Hs IH].
  - unfold tree_of. rewrite lookup_empty. split; constructor.
  - destruct (AddTransactionV2_cases s u ty amt d id now) as [Hother Hsame].
    destruct (decide (u = userId)) as [<-|Hne].
    + destruct (_ && _).
      * destruct Hsame as (_ & -> & _). done.
      * destruct Hsame as (_ & -> & _). by apply Put_wf.
    + destruct (Hother userId Hne) as [-> _]. done.
Qed.

Lemma reachableV2_run calls s : reachableV2 s → reachableV2 (run_callsV2 s calls).
Proof.
  revert s. induction calls as [|c calls IH]; intros s Hs; [done|].
  simpl. apply IH. unfold do_callV2. by apply reachableV2_add.
Qed.

Lemma reachableV2_three_deposits : reachableV2 three_depositsV2.
Proof. apply reachableV2_run, reachableV2_new. Qed.

Lemma tree_invariant_witness : tree_wf (tree_of three_depositsV2 "alice").
Proof. apply (tree_invariant three_depositsV2 "alice"), reachableV2_three_deposits. Defined.



Lemma tree_wf_records t :
  tree_wf t → t = entry <$> t.*2 ∧ sorted_by_timestamp t.*2.
Proof.
  intros [Hs Hf]. split.
  - clear Hs. induction Hf as [|[k v] t Hk _ IH]; [done|].
    rewrite !fmap_cons. cbn in Hk. subst k. cbn [snd]. unfold entry at 1.
    f_equal. exact IH.
  - unfold sorted_by_timestamp.
    induction Hs as [|[k v] t Hs IH Hx]; [constructor|].
    apply Forall_cons in Hf as [Hk Hf]. simpl in *. constructor; [by apply IH|].
    rewrite Forall_fmap. rewrite Forall_forall in Hx, Hf |- *.
    intros [k' v'] He. specialize (Hx _ He). specialize (Hf _ He).
    unfold timestamp_le. simpl in *. lia.
Qed.

(** X12. The total count of the tree store: on a reachable tree store,
    whenever [GetPaginatedTransactionsV2] returns, its total count is the
    number of records of the account in the range, for every start and end
    (also a start after the end, where it is 0), every page and every page
    size; it is never negative. *)
Theorem tree_total_count (s : LedgerStoreV2) (userId : string)
    (startTime endTime : option Time) (page pageSize : Z) (r : PaginatedTransactions) :
  reachableV2 s →
  GetPaginatedTransactionsV2 s userId startTime endTime page pageSize = Some r →
  TotalCount r = len (filter (in_range startTime endTime) (tree_of s userId).*2) ∧
  0 <= TotalCount r.
Proof.
  intros Hr Hres.
  assert (TotalCount r = len (filter (in_range startTime endTime) (tree_of s userId).*2));
    [|split; [done|]; rewrite H; apply len_nonneg].
  destruct (tree_wf_records _ (tree_invariant s userId Hr)) as [Ht Hs].
  revert Hres Ht Hs. unfold GetPaginatedTransactionsV2, tree_of.
  destruct (s !! userId) as [l|]; [|by intros [= <-] _ _].
  intros Hres Ht Hs. rewrite Ht, (collect_filter _ _ _ [] Hs) in Hres. simpl in Hres.
  destruct (_ >=? _); [by injection Hres as <-|].
  destruct (slice _ _ _); [|done]. by injection Hres as <-.
Qed.

Lemma tree_total_count_witness :
  ∃ r, GetPaginatedTransactionsV2 three_depositsV2 "alice" (Some 3) (Some 1) 1 10 = Some r ∧
       TotalCount r
       = len (filter (in_range (Some 3) (Some 1)) (tree_of three_depositsV2 "alice").*2) ∧
       0 <= TotalCount r.
Proof.
  eexists. split; [reflexivity|].
  apply (tree_total_count three_depositsV2 "alice" (Some 3) (Some 1) 1 10);
    [apply reachableV2_three_deposits|reflexivity].
Defined.

Lemma do_callV2_nonneg s c :
  valid_type (call_type c) → (0 <= call_amount c)%Q →
  (∀ u, (0 <= (GetBalanceV2 s u).1)%Q) →
  ∀ u, (0 <= (GetBalanceV2 (do_callV2 s c).1 u).1)%Q.
Proof.
  intros Hv Hamt Hs u. unfold do_callV2.
  destruct (AddTransactionV2_cases s (call_user c) (call_type c) (call_amount c)
              (call_description c) (call_id c) (call_now c)) as [Hother Hsame].
  destruct (decide (call_user c = u)) as [<-|Hne].
  2:{ destruct (Hother u Hne) as [_ ->]. apply Hs. }
  specialize (Hs (call_user c)).
  destruct (String.eqb (call_type c) Withdrawal && Qltb _ _) eqn:Hi.
  - destruct Hsame as (_ & _ & ->). done.
  - destruct Hsame as (_ & _ & ->). simpl.
    destruct Hv as [E|E]; rewrite E in *; simpl in *; [lra|].
    apply Qltb_ge in Hi. lra.
Qed.

(** X13. No overdraft in the tree store: after any sequence of
    [AddTransactionV2] calls with kinds of the enumeration and non-negative
    amounts on a fresh tree store, every account's balance is at least
    zero. *)
Theorem tree_no_overdraft (calls : list AddCall) (userId : string) :
  Forall (λ c, valid_type (call_type c) ∧ (0 <= call_amount c)%Q) calls →
  (0 <= (GetBalanceV2 (run_callsV2 ∅ calls) userId).1)%Q.
Proof.
  intros Hcalls.
  assert (∀ s : LedgerStoreV2, (∀ u, (0 <= (GetBalanceV2 s u).1)%Q) →
            ∀ u, (0 <= (GetBalanceV2 (run_callsV2 s calls) u).1)%Q) as Hrun.
  { induction Hcalls as [|c calls [Hv Hamt] _ IH]; intros s Hs; [done|].
    simpl. apply IH. by apply do_callV2_nonneg. }
  apply Hrun. intros u. unfold GetBalanceV2. rewrite lookup_empty. simpl. lra.
Qed.

Lemma tree_no_overdraft_witness :
  (0 <= (GetBalanceV2 (run_callsV2 ∅ calls_example) "alice").1)%Q.
Proof.
  apply (tree_no_overdraft calls_example "alice").
  unfold calls_example. repeat constructor; try (by left); try (by right); by vm_compute.
Defined.

End TreeStoreProperties.

(** ** The service layer *)

Section ServiceProperties.

Lemma match_nonempty u :
  services.userIdRegex_MatchString u = true → String.eqb u "" = false.
Proof.
  unfold services.userIdRegex_MatchString. destruct u; [done|]. done.
Qed.

(** The checks of [RecordTransaction], in one test. *)
Lemma RecordTransaction_checked s u ty amt d id now :
  services.userIdRegex_MatchString u = true →
  (0 < amt)%Q → (amt <= services.maxAmount)%Q → valid_type ty →
  Z.of_nat (String.length d) <= 500 →
  services.RecordTransaction s u ty amt d id now
  = let r := AddTransaction s u ty amt d id now in
    (r.1, (if insufficient s u ty amt then zero_record else r.2.1, r.2.2)).
Proof.
  intros Hu Hpos Hmax Hv Hd. unfold services.RecordTransaction.
  rewrite (match_nonempty _ Hu), Hu. simpl.
  assert (Qle_bool amt 0 = false) as ->.
  { destruct (Qle_bool amt 0) eqn:E; [|done]. apply Qle_bool_iff in E. lra. }
  assert (Qltb services.maxAmount amt = false) as -> by by apply Qltb_ge.
  assert (negb (String.eqb ty Deposit) && negb (String.eqb ty Withdrawal) = false) as ->
    by (destruct Hv as [-> | ->]; done).
  rewrite Z.gtb_ltb. destruct (Z.ltb_spec 500 (Z.of_nat (String.length d))); [lia|].
  destruct (insufficient s u ty amt) eqn:Hi.
  - by rewrite AddTransaction_rejected.
  - by rewrite AddTransaction_accepted.
Qed.

(** A request fails a check, and the store is not called, or it passes all
    of them. *)
Lemma RecordTransaction_cases s u ty amt d id now :
  (∃ e, services.RecordTransaction s u ty amt d id now = (s, (zero_record, Some e))) ∨
  (services.userIdRegex_MatchString u = true ∧ (0 < amt)%Q ∧
   (amt <= services.maxAmount)%Q ∧ valid_type ty ∧ Z.of_nat (String.length d) <= 500).
Proof.
  unfold services.RecordTransaction.
  destruct (String.eqb u ""); [left; by eexists|].
  destruct (services.userIdRegex_MatchString u); [|left; by eexists]. simpl.
  destruct (Qle_bool amt 0) eqn:E1; [left; by eexists|].
  destruct (Qltb services.maxAmount amt) eqn:E2; [left; by eexists|].
  destruct (String.eqb_spec ty Deposit) as [E3|E3]; simpl.
  - rewrite Z.gtb_ltb. destruct (Z.ltb_spec 500 (Z.of_nat (String.length d)));
      [left; by eexists|].
    right. apply Qltb_ge in E2. split; [done|]. split; [|split; [done|split; [by left|done]]].
    apply Qnot_le_lt. intros Hle%Qle_bool_iff. congruence.
  - destruct (String.eqb_spec ty Withdrawal) as [E4|E4]; simpl; [|left; by eexists].
    rewrite Z.gtb_ltb. destruct (Z.ltb_spec 500 (Z.of_nat (String.length d)));
      [left; by eexists|].
    right. apply Qltb_ge in E2. split; [done|]. split; [|split; [done|split; [by right|done]]].
    apply Qnot_le_lt. intros Hle%Qle_bool_iff. congruence.
Qed.

(** X14. A request that [RecordTransaction] answers with an error, whether
    a failed check or insufficient funds, returns the zero record and
    leaves the balance and the sequence of every account as they were. *)
Theorem rejected_request_changes_nothing (s : LedgerStore) (userId : string)
    (txType : TransactionType) (amount : Q) (description : string) (id : UUID) (now : Time) :
  let r := services.RecordTransaction s userId txType amount description id now in
  r.2.2 ≠ None →
  r.2.1 = zero_record ∧
  ∀ u, GetBalance r.1 u = GetBalance s u ∧ transactions_of r.1 u = transactions_of s u.
Proof.
  intros r Herr. subst r.
  destruct (RecordTransaction_cases s userId txType amount description id now)
    as [[e ->]|(Hu & Hpos & Hmax & Hv & Hd)]; [done|].
  rewrite RecordTransaction_checked in * by done. simpl in *.
  rewrite AddTransaction_error in Herr.
  destruct (insufficient s userId txType amount) eqn:Hi; [|done].
  split; [done|]. intros u. rewrite !GetBalance_balance_of.
  unfold balance_of, transactions_of.
  destruct (decide (userId = u)) as [<-|Hne].
  - by rewrite AddTransaction_same, Hi.
  - by rewrite AddTransaction_other.
Qed.

Lemma rejected_request_changes_nothing_witness :
  let r := services.RecordTransaction one_deposit "alice" Withdrawal 150 "rent" 2%N 20 in
  r.2.1 = zero_record ∧
  ∀ u, GetBalance r.1 u = GetBalance one_deposit u ∧
       transactions_of r.1 u = transactions_of one_deposit u.
Proof.
  apply (rejected_request_changes_nothing one_deposit "alice" Withdrawal 150 "rent" 2%N 20).
  discriminate.
Defined.

Lemma normal_page_size_bounds pageSize :
  1 <= normal_page_size pageSize <= 100.
Proof.
  unfold normal_page_size, services.maxPageSize. rewrite Z.gtb_ltb.
  destruct (Z.ltb_spec pageSize 1).
  - destruct (Z.ltb_spec 100 10); lia.
  - destruct (Z.ltb_spec 100 pageSize); lia.
Qed.

Lemma normal_page_bounds page : 1 <= normal_page page.
Proof. unfold normal_page. destruct (Z.ltb_spec page 1); lia. Qed.

Lemma guard_range_ok st et :
  (match st, et with Some a, Some b => After a b | _, _ => false end) = false
  ↔ range_ok st et.
Proof.
  unfold range_ok, After. destruct st, et; try done.
  rewrite Z.gtb_ltb, Z.ltb_ge. done.
Qed.

(** [GetPaginatedTransactionHistory] for an identifier that matches. *)
Lemma GetPaginatedTransactionHistory_unfold s u st et page pageSize :
  services.userIdRegex_MatchString u = true →
  services.GetPaginatedTransactionHistory s u st et page pageSize
  = if (match st, et with Some a, Some b => After a b | _, _ => false end) then
      Some (services.zero_page, Some "start time cannot be after end time"%string)
    else
      result ← GetPaginatedTransactions s u st et (normal_page page)
                 (normal_page_size pageSize);
      let totalPages :=
        Z.quot (int_sub (int_add (TotalCount result) (normal_page_size pageSize)) 1)
          (normal_page_size pageSize) in
      Some ({| services.Transactions := Transactions result;
               services.TotalCount := TotalCount result;
               services.Page := normal_page page;
               services.PageSize := normal_page_size pageSize;
               services.TotalPages := if totalPages <? 1 then 1 else totalPages |}, None).
Proof.
  intros Hu. unfold services.GetPaginatedTransactionHistory.
  by rewrite (match_nonempty _ Hu), Hu.
Qed.

Lemma total_pages_exact count pageSize :
  0 <= count → 1 <= pageSize → count + pageSize <= max_int →
  (if Z.quot (int_sub (int_add count pageSize) 1) pageSize <? 1 then 1
   else Z.quot (int_sub (int_add count pageSize) 1) pageSize)
  = Z.max 1 ((count + pageSize - 1) / pageSize).
Proof.
  intros Hc Hp Hb.
  assert (int_add count pageSize = count + pageSize) as -> by int_exact.
  assert (int_sub (count + pageSize) 1 = count + pageSize - 1) as -> by int_exact.
  rewrite Z.quot_div_nonneg by lia.
  destruct (Z.ltb_spec ((count + pageSize - 1) / pageSize) 1); lia.
Qed.

(** X15. The history query of the service: for an identifier that matches
    the pattern and a reachable store, a start after the end is answered
    with an error; otherwise, with the page number raised to at least 1 and
    the page size defaulted to 10 and clamped to 100, and page arithmetic
    that does not overflow, the answer is the page of the records in the
    range, their number, the page number and page size used, and the number
    of pages [max 1 (ceil (count / pageSize))]. *)
Theorem history_query (s : LedgerStore) (userId : string)
    (startTime endTime : option Time) (page pageSize : Z) :
  reachable s → services.userIdRegex_MatchString userId = true →
  let p := normal_page page in
  let ps := normal_page_size pageSize in
  let inside := filter (in_range startTime endTime) (transactions_of s userId) in
  (¬ range_ok startTime endTime →
     services.GetPaginatedTransactionHistory s userId startTime endTime page pageSize
     = Some (services.zero_page, Some "start time cannot be after end time"%string)) ∧
  (range_ok startTime endTime →
   page_fits (len (transactions_of s userId)) p ps →
     services.GetPaginatedTransactionHistory s userId startTime endTime page pageSize
     = Some ({| services.Transactions := page_of inside p ps;
                services.TotalCount := len inside;
                services.Page := p;
                services.PageSize := ps;
                services.TotalPages := Z.max 1 ((len inside + ps - 1) / ps) |}, None)).
Proof.
  intros Hr Hu p ps inside.
  rewrite (GetPaginatedTransactionHistory_unfold _ _ _ _ _ _ Hu).
  pose proof (guard_range_ok startTime endTime) as Hg.
  destruct (match startTime, endTime with Some a, Some b => After a b | _, _ => false end).
  - split; [done|]. intros Hok. apply Hg in Hok. done.
  - split; [intros Hno; destruct Hno; by apply Hg|]. intros Hok Hfit.
    fold p ps.
    rewrite (GetPaginatedTransactions_fits s userId startTime endTime p ps)
      by (done || by apply every_state_sorted).
    simpl. fold inside. do 2 f_equal.
    pose proof (normal_page_size_bounds pageSize). fold ps in H.
    assert (0 <= len inside <= len (transactions_of s userId)) as Hin.
    { unfold len, inside.
      pose proof (length_filter (in_range startTime endTime) (transactions_of s userId)).
      lia. }
    destruct Hfit as (Hp & _ & Hb).
    rewrite (total_pages_exact (len inside) ps) by nia. done.
Qed.

Lemma history_query_witness :
  services.GetPaginatedTransactionHistory three_deposits "alice" (Some 2) None 0 2
  = Some ({| services.Transactions :=
               page_of (filter (in_range (Some 2) None)
                          (transactions_of three_deposits "alice")) 1 2;
             services.TotalCount := 2;
             services.Page := 1;
             services.PageSize := 2;
             services.TotalPages := 1 |}, None).
Proof.
  destruct (history_query three_deposits "alice" (Some 2) None 0 2
              reachable_three_deposits eq_refl) as [_ H].
  apply H; [done|by vm_compute].
Defined.

(** X16. Whatever the page number: when the history query of the service
    returns without an error, on a reachable store whose sequence leaves
    room for one page, the page number is at least 1, the page size is
    between 1 and 100, the answer holds at most that many records, the
    total count is the number of records in the range and not negative,
    and the number of pages is [max 1 (ceil (count / pageSize))]. *)
Theorem history_answer_shape (s : LedgerStore) (userId : string)
    (startTime endTime : option Time) (page pageSize : Z)
    (r : services.PaginatedTransactions) :
  reachable s → len (transactions_of s userId) + 100 <= max_int →
  services.GetPaginatedTransactionHistory s userId startTime endTime page pageSize
  = Some (r, None) →
  let inside := filter (in_range startTime endTime) (transactions_of s userId) in
  1 <= services.Page r ∧
  1 <= services.PageSize r <= 100 ∧
  len (services.Transactions r) <= services.PageSize r ∧
  services.TotalCount r = len inside ∧
  services.TotalPages r
  = Z.max 1 ((len inside + services.PageSize r - 1) / services.PageSize r).
Proof.
  intros Hr Hn Hres inside.
  assert (services.userIdRegex_MatchString userId = true) as Hu.
  { revert Hres. unfold services.GetPaginatedTransactionHistory.
    destruct (String.eqb userId ""); [done|].
    by destruct (services.userIdRegex_MatchString userId). }
  rewrite (GetPaginatedTransactionHistory_unfold _ _ _ _ _ _ Hu) in Hres.
  pose proof (guard_range_ok startTime endTime) as Hg.
  destruct (match startTime, endTime with Some a, Some b => After a b | _, _ => false end);
    [done|].
  assert (range_ok startTime endTime) as Hok by by apply Hg.
  destruct (GetPaginatedTransactions _ _ _ _ _ _) as [res|] eqn:Hstore; [|done].
  simpl in Hres. injection Hres as <-. simpl.
  pose proof (every_state_sorted s Hr userId) as Hs.
  pose proof (normal_page_size_bounds pageSize) as Hps.
  pose proof (normal_page_bounds page) as Hp.
  assert (len (transactions_of s userId) <= max_int) as Hn' by lia.
  assert (is_int (normal_page_size pageSize)) as Hint
    by (unfold is_int; pose proof min_int_max_int;
        pose proof (len_nonneg (transactions_of s userId)); lia).
  pose proof (total_count_in_range _ _ _ _ _ _ _ Hs Hok Hn' Hstore) as Hcount.
  pose proof (returned_page_bound _ _ _ _ _ _ _ Hint Hn' Hstore) as Hlen.
  fold inside in Hcount.
  assert (0 <= len inside <= len (transactions_of s userId)) as Hin.
  { unfold len, inside.
    pose proof (length_filter (in_range startTime endTime) (transactions_of s userId)).
    lia. }
  split; [done|]. split; [done|]. split; [lia|]. split; [done|].
  rewrite Hcount. apply total_pages_exact; lia.
Qed.

Lemma history_answer_shape_witness :
  ∃ r, services.GetPaginatedTransactionHistory three_deposits "alice" None None 7 500
       = Some (r, None) ∧
       services.PageSize r = 100 ∧ services.TotalCount r = 3 ∧ services.TotalPages r = 1.
Proof.
  eexists. split; [reflexivity|].
  destruct (history_answer_shape three_deposits "alice" None None 7 500 _
              reachable_three_deposits ltac:(by vm_compute) eq_refl)
    as (_ & _ & _ & Hc & Hp).
  split; [reflexivity|]. split; [exact Hc|exact Hp].
Defined.

End ServiceProperties.
